(** * Finemate dashboard backend: a shallow embedding of [server.js]

    The server is an Express application over one SQLite database.  Every
    route handler is a function of the request and the database; handlers
    that write return the new database with the response.

    Conventions of the embedding.
    - JavaScript strings and SQLite TEXT values are [string]s (characters
      with codes 0..255); TEXT comparison is bytewise, as SQLite's BINARY
      collation.
    - JavaScript numbers and SQLite REAL values are IEEE 754 doubles, the
      kernel's [float]; their sums are taken in double arithmetic, in row
      order.  SQLite INTEGER values are integers ([Z]) of which the engine
      holds the 64-bit range: a sum that leaves it is an error, and read as
      a JavaScript number an integer is rounded to the nearest double.
    - [undefined] / SQL NULL is [None].
    - Single-line template literals of the source ([`%${q}%`], [`"${v}"`],
      the SQL texts) are read as template literals.
    - The clock and the time zone of the host are an explicit [host] record. *)

From Stdlib Require Import Ascii QArith Qcanon Qround DecimalString Lqa.
From Stdlib Require Import PrimFloat SpecFloat FloatOps.
From stdpp Require Import numbers gmap strings list sorting.

Local Open Scope Z_scope.

(** ** JavaScript built-ins used by the handlers *)

Module JS.

(** White space removed by [String.prototype.trim] (code points below 256):
    TAB, LF, VT, FF, CR, SPACE and NBSP. *)
Definition is_white_space (c : ascii) : bool :=
  let n := N_of_ascii c in
  ((9 <=? n)%N && (n <=? 13)%N) || (n =? 32)%N || (n =? 160)%N.

Fixpoint trimStart (s : string) : string :=
  match s with
  | String c s' => if is_white_space c then trimStart s' else s
  | EmptyString => EmptyString
  end.

Definition trimEnd (s : string) : string :=
  String.rev (trimStart (String.rev s)).

Definition trim (s : string) : string := trimEnd (trimStart s).

(** A string is truthy when it is not empty. *)
Definition truthy_string (s : string) : bool :=
  match s with EmptyString => false | _ => true end.

(** [x || d] on an optional string: [undefined], [null] and [""] are falsy. *)
Definition or_string (x : option string) (d : string) : string :=
  match x with
  | Some s => if truthy_string s then s else d
  | None => d
  end.

Definition digit_value (c : ascii) : option Z :=
  Z.of_nat <$> Ascii.is_nat c.

(** Longest prefix of decimal digits, read left to right; [None] when the
    prefix is empty. *)
Fixpoint parse_digits (s : string) (acc : option Z) : option Z :=
  match s with
  | String c s' =>
      match digit_value c with
      | Some d => parse_digits s' (Some (10 * default 0 acc + d))
      | None => acc
      end
  | EmptyString => acc
  end.

(** [parseInt(s, 10)]: leading white space is skipped, one sign is read,
    then the longest run of digits; [None] is NaN. *)
Definition parseInt (s : string) : option Z :=
  match trimStart s with
  | String "-"%char r => Z.opp <$> parse_digits r None
  | String "+"%char r => parse_digits r None
  | r => parse_digits r None
  end.

(** The exact value of a finite number; [None] for an infinity and for
    NaN. *)
Definition exact (x : float) : option Qc :=
  match Prim2SF x with
  | S754_zero _ => Some (Q2Qc 0)
  | S754_finite s m e =>
      Some (Q2Qc ((if s then -1 else 1) * inject_Z (Z.pos m) * 2 ^ e)%Q)
  | S754_infinity _ | S754_nan => None
  end.

(** The result of [Math.round]: an integer, or the argument itself when it
    is an infinity or NaN.  The sign of a zero result is not kept: JSON
    writes 0 for both zeros. *)
Inductive rounded := Whole (z : Z) | Unrounded (x : float).

(** [Math.round]: the integer nearest to [x], ties towards +infinity. *)
Definition Math_round (x : float) : rounded :=
  match exact x with
  | Some q => Whole (Qfloor (q + Q2Qc (1 # 2))%Qc)
  | None => Unrounded x
  end.

(** A number is falsy exactly when it is a zero or NaN. *)
Definition truthy_number (x : float) : bool :=
  match Prim2SF x with
  | S754_zero _ | S754_nan => false
  | S754_infinity _ | S754_finite _ _ _ => true
  end.

(** The integer [z] as a JavaScript number: the double nearest to [z], ties
    to the even significand; integers up to 2^53 in magnitude are kept.
    (Beyond the range of the doubles the number is an infinity; the model
    keeps a large integer there, which the handlers treat alike.) *)
Definition to_double (z : Z) : Z :=
  let a := Z.abs z in
  let e := Z.log2 a - 52 in
  if e <=? 0 then z
  else
    let q := Z.shiftr a e in
    let r := a - Z.shiftl q e in
    let half := Z.shiftl 1 (e - 1) in
    let q' := if (half <? r) || ((r =? half) && Z.odd q) then q + 1 else q in
    Z.sgn z * Z.shiftl q' e.

(** [s.replace(/c/g, by)] for a one-character pattern. *)
Fixpoint replace_all (c : ascii) (by_ : string) (s : string) : string :=
  match s with
  | String d s' =>
      if decide (d = c) then by_ +:+ replace_all c by_ s'
      else String d (replace_all c by_ s')
  | EmptyString => EmptyString
  end.

(** [parts.join(sep)] *)
Fixpoint join (sep : string) (parts : list string) : string :=
  match parts with
  | [] => EmptyString
  | [p] => p
  | p :: ps => p +:+ sep +:+ join sep ps
  end.

(** [s.split(c)] for a one-character separator. *)
Fixpoint split_go (c : ascii) (cur : string) (s : string) : list string :=
  match s with
  | String d s' =>
      if decide (d = c) then String.rev cur :: split_go c EmptyString s'
      else split_go c (String d cur) s'
  | EmptyString => [String.rev cur]
  end.
Definition split (c : ascii) (s : string) : list string :=
  split_go c EmptyString s.

(** [s.slice(0, n)] *)
Definition slice0 (n : nat) (s : string) : string := String.substring 0 n s.

End JS.

(** ** Calendar arithmetic behind [Date] *)

Module Date.

(** The host: local and UTC calendar fields of "now" (months are 0-based,
    as [getMonth]), the offset of local time from UTC in minutes (east
    positive) in force at local midnight on the first of a given month, and
    the text SQLite's [datetime('now')] yields. *)
Record host := {
  getFullYear : Z;
  getMonth : Z;
  getUTCFullYear : Z;
  getUTCMonth : Z;
  tz_offset : Z → Z → Z;
  datetime_now : string
}.

(** Days from 1970-01-01 to the civil date [y]-[m]-[d] ([m] in 1..12). *)
Definition days_from_civil (y m d : Z) : Z :=
  let y' := if m <=? 2 then y - 1 else y in
  let era := y' / 400 in
  let yoe := y' - era * 400 in
  let mp := (m + 9) mod 12 in
  let doy := (153 * mp + 2) / 5 + d - 1 in
  let doe := yoe * 365 + yoe / 4 - yoe / 100 + doy in
  era * 146097 + doe - 719468.

(** The civil date ([y], [m] in 1..12, [d]) of a day number. *)
Definition civil_from_days (z : Z) : Z * Z * Z :=
  let z' := z + 719468 in
  let era := z' / 146097 in
  let doe := z' - era * 146097 in
  let yoe := (doe - doe / 1460 + doe / 36524 - doe / 146096) / 365 in
  let doy := doe - (365 * yoe + yoe / 4 - yoe / 100) in
  let mp := (5 * doy + 2) / 153 in
  let d := doy - (153 * mp + 2) / 5 + 1 in
  let m := if mp <? 10 then mp + 3 else mp - 9 in
  let y := yoe + era * 400 in
  (if m <=? 2 then y + 1 else y, m, d).

(** [new Date(year, monthIndex, 1)] on host [h]: the time value, in minutes
    since the epoch, of local midnight on the first of the month; years
    0..99 mean 1900..1999 and the month index is carried into the year.
    [None] is an invalid date (time value beyond 8.64e15 ms). *)
Definition first_of_month (h : host) (year monthIndex : Z) : option Z :=
  let yr := if (0 <=? year) && (year <=? 99) then 1900 + year else year in
  let ym := yr + monthIndex / 12 in
  let mn := monthIndex mod 12 in
  let t := days_from_civil ym (mn + 1) 1 * 1440 - tz_offset h ym mn in
  if Z.abs t <=? 144000000000 then Some t else None.

Definition pad_left (n : nat) (s : string) : string :=
  String.string_of_list_ascii (replicate (n - String.length s) "0"%char) +:+ s.

Definition decimal (n : Z) : string :=
  NilZero.string_of_uint (N.to_uint (Z.to_N n)).

(** The year of an ISO 8601 text: four digits for 0..9999, otherwise a
    sign and six digits. *)
Definition iso_year (y : Z) : string :=
  if (0 <=? y) && (y <=? 9999) then pad_left 4 (decimal y)
  else (if y <? 0 then "-" else "+") +:+ pad_left 6 (decimal (Z.abs y)).

(** The date part of an ISO 8601 text. *)
Definition iso_date (y m d : Z) : string :=
  iso_year y +:+ "-" +:+ pad_left 2 (decimal m) +:+ "-" +:+ pad_left 2 (decimal d).

(** The date part of [d.toISOString()], which prints the UTC fields of the
    time value [t] (the part from "T" on is never reached by [slice(0,7)]). *)
Definition toISOString (t : Z) : string :=
  let '(y, m, d) := civil_from_days (t / 1440) in iso_date y m d.

Definition month_short : list string :=
  ["Jan"; "Feb"; "Mar"; "Apr"; "May"; "Jun";
   "Jul"; "Aug"; "Sep"; "Oct"; "Nov"; "Dec"].

(** [new Date(y, mi).toLocaleString('en', {month:'short'})]: the name of
    month [mi] (carried into 0..11); an undefined or non-numeric month
    makes the date invalid. *)
Definition month_label (mi : option Z) : string :=
  match mi with
  | Some i => default "Invalid Date" (month_short !! Z.to_nat (i mod 12))
  | None => "Invalid Date"
  end.

End Date.

(** ** The SQL engine, as far as the statements of the server use it *)

Module SQL.

(** The default LIKE folds the case of ASCII letters only. *)
Definition fold_case (c : ascii) : ascii :=
  let n := N_of_ascii c in
  if ((65 <=? n)%N && (n <=? 90)%N) then ascii_of_N (n + 32) else c.

(** Matching of a pattern against a text, character by character: [%]
    matches any run of characters, [_] any single character, every other
    character matches itself up to ASCII case.  The statements of the
    server give no ESCAPE character. *)
Fixpoint like_chars (pat s : string) : bool :=
  match pat with
  | EmptyString => match s with EmptyString => true | _ => false end
  | String "%"%char p =>
      (fix any (s : string) : bool :=
         like_chars p s ||
         match s with String _ s' => any s' | EmptyString => false end) s
  | String "_"%char p =>
      match s with String _ s' => like_chars p s' | EmptyString => false end
  | String c p =>
      match s with
      | String d s' => bool_decide (fold_case c = fold_case d) && like_chars p s'
      | EmptyString => false
      end
  end.

Definition NUL : ascii := "000"%char.

(** The part of a text before its first NUL character. *)
Fixpoint c_string (s : string) : string :=
  match s with
  | String c s' => if decide (c = NUL) then EmptyString else String c (c_string s')
  | EmptyString => EmptyString
  end.

(** [s LIKE pat]: the engine reads the pattern and the text as C strings,
    each up to its first NUL character. *)
Definition like (pat s : string) : bool := like_chars (c_string pat) (c_string s).

(** [substr(s, 1, n)]: the engine reads the text as a C string, up to its
    first NUL character. *)
Definition substr1 (n : nat) (s : string) : string :=
  String.substring 0 n (c_string s).

(** A double as a REAL column or result holds it: NaN becomes NULL and the
    negative zero is kept as 0. *)
Definition real (x : float) : option float :=
  match Prim2SF x with
  | S754_nan => None
  | S754_zero _ => Some 0%float
  | S754_infinity _ | S754_finite _ _ _ => Some x
  end.

(** [SUM(x)] over REAL values: NULL inputs are skipped and the others are
    added to 0.0 one after the other in row order, in double arithmetic.
    The result is NULL when no input is left, and when the sum is NaN (an
    infinity added to the opposite one).  This is the summation of SQLite
    up to 3.42; later versions carry a correction term for the rounding
    error along (Kahan-Babuska), which the model does not follow. *)
Definition SUM (vs : list (option float)) : option float :=
  match omap id vs with
  | [] => None
  | xs => real (foldl PrimFloat.add 0%float xs)
  end.

(** The range of a 64-bit integer. *)
Definition int64 (z : Z) : bool := (- 2 ^ 63 <=? z) && (z <? 2 ^ 63).

(** 64-bit addition of [xs] to [acc], one after the other; [None] as soon
    as a sum leaves the range. *)
Fixpoint add_all (acc : Z) (xs : list Z) : option Z :=
  match xs with
  | [] => Some acc
  | x :: xs' => if int64 (acc + x) then add_all (acc + x) xs' else None
  end.

(** [SUM(x)] over INTEGER values: NULL inputs are skipped and the others are
    added in row order; the result is NULL when no input is left.  The
    outer [None] is the error "integer overflow", raised when a partial sum
    leaves the 64-bit range. *)
Definition SUM_int (vs : list (option Z)) : option (option Z) :=
  match omap id vs with
  | [] => Some None
  | xs => Some <$> add_all 0 xs
  end.

(** The order of REAL values in ORDER BY: -infinity, then the finite values
    by their exact value (the two zeros tie), then +infinity.  NaN is not a
    REAL value; it takes the place of NULL, before the others. *)
Definition real_key (x : float) : Z * Qc :=
  match Prim2SF x with
  | S754_nan => (-2, Q2Qc 0)
  | S754_infinity true => (-1, Q2Qc 0)
  | S754_infinity false => (1, Q2Qc 0)
  | S754_zero _ | S754_finite _ _ _ => (0, default (Q2Qc 0) (JS.exact x))
  end.

Definition real_le (x y : float) : Prop :=
  (real_key x).1 < (real_key y).1 ∨
  ((real_key x).1 = (real_key y).1 ∧ ((real_key x).2 ≤ (real_key y).2)%Qc).

Definition IFNULL {A} (v : option A) (d : A) : A := default d v.

(** [GROUP BY key]: one group for each distinct key value, holding the
    rows that have it. *)
Definition group_by {A K} `{EqDecision K} (key : A → K) (rows : list A)
  : list (K * list A) :=
  (λ k, (k, filter (λ r, key r = k) rows)) <$> remove_dups (key <$> rows).

(** [ORDER BY]: the rows sorted for a total preorder [R] ("comes before
    or ties with"). *)
Definition order_by {A} (R : relation A) `{∀ x y, Decision (R x y)}
  (rows : list A) : list A := merge_sort R rows.

(** A number bound to LIMIT or OFFSET: the double nearest to [v], which the
    engine takes when it is an integer strictly inside the 64-bit range;
    [None] is the error "datatype mismatch". *)
Definition must_be_int (v : Z) : option Z :=
  let x := JS.to_double v in
  if (- 2 ^ 63 <? x) && (x <? 2 ^ 63) then Some x else None.

(** [LIMIT limit OFFSET offset]: a negative offset skips nothing and a
    negative limit keeps every row. *)
Definition limit_offset {A} (limit offset : Z) (rows : list A) : list A :=
  let rest := drop (Z.to_nat offset) rows in
  if limit <? 0 then rest else take (Z.to_nat limit) rest.

End SQL.

(** ** The tables *)

Record transaction := {
  tx_id : Z;
  tx_date : string;
  tx_reference : string;
  tx_type : string;
  tx_account : string;
  tx_debit : option float;
  tx_credit : option float;
  tx_created_at : string
}.

Record inventory_item := {
  inv_id : Z;
  inv_sku : string;
  inv_name : string;
  inv_stock : option Z;
  inv_reorder_level : option Z;
  inv_status : option string
}.

Record category := { cat_id : Z; cat_name : string }.

Record category_sale := {
  cs_id : Z;
  cs_category_id : Z;
  cs_month : string;
  cs_amount : float
}.

(** The database file: the four tables in rowid order, and the counter that
    AUTOINCREMENT keeps for [transactions] (the largest rowid ever used). *)
Record db := {
  transactions : list transaction;
  transactions_seq : Z;
  inventory : list inventory_item;
  categories : list category;
  category_sales : list category_sale
}.

Definition empty_db : db :=
  {| transactions := []; transactions_seq := 0; inventory := [];
     categories := []; category_sales := [] |}.

Definition set_transactions (rows : list transaction) (seq : Z) (d : db) : db :=
  {| transactions := rows; transactions_seq := seq; inventory := inventory d;
     categories := categories d; category_sales := category_sales d |}.

(** ** WHERE clauses over [transactions] *)

Inductive column := Date_ | Reference | Type_ | Account.

Definition column_of (c : column) (t : transaction) : string :=
  match c with
  | Date_ => tx_date t
  | Reference => tx_reference t
  | Type_ => tx_type t
  | Account => tx_account t
  end.

(** The conditions the server writes; a bound parameter is part of the
    condition.  A numeric parameter that is NaN is bound as NULL, and
    [id = NULL] holds of no row. *)
Inductive condition :=
| Always                                   (* 1=1 *)
| Eq_ (c : column) (v : string)            (* c = ? *)
| Ge (c : column) (v : string)             (* c >= ? *)
| Like (c : column) (pat : string)         (* c LIKE ? *)
| IdEq (v : option Z)                      (* id = ? *)
| And (a b : condition)
| Or (a b : condition).

Fixpoint holds (w : condition) (t : transaction) : bool :=
  match w with
  | Always => true
  | Eq_ c v => bool_decide (column_of c t = v)
  | Ge c v => String.leb v (column_of c t)
  | Like c pat => SQL.like pat (column_of c t)
  | IdEq v => bool_decide (v = Some (tx_id t))
  | And a b => holds a t && holds b t
  | Or a b => holds a t || holds b t
  end.

(** ** Responses *)

(** [res.json({success:true, ...})], [res.status(400).json(...)] and the
    [catch] branch [res.status(500).json(...)]. *)
Inductive response (A : Type) :=
| Ok (body : A)
| BadRequest (message : string)
| ServerError (message : string).
Arguments Ok {A} body.
Arguments BadRequest {A} message.
Arguments ServerError {A} message.

Definition success {A} (r : response A) : bool :=
  match r with Ok _ => true | _ => false end.

Definition status {A} (r : response A) : Z :=
  match r with Ok _ => 200 | BadRequest _ => 400 | ServerError _ => 500 end.

(** The body of a [try] block: an exception anywhere in it ([None]) is
    answered by the [catch] branch. *)
Definition try_catch {A} (body : option (response A)) : response A :=
  default (ServerError "Server error") body.

(** [allAsync] of a SELECT over [transactions] with a WHERE clause, and
    [getAsync], which resolves to the first row or [undefined]. *)
Definition select_where (w : condition) (d : db) : list transaction :=
  filter (λ t, holds w t) (transactions d).

Definition getAsync (w : condition) (d : db) : option transaction :=
  head (select_where w d).

(** ** GET /api/stats *)

Module Stats.
Record t := { revenue : float; expenses : float; profit : float; stock : Z }.
End Stats.

(** [x || 0] on numbers. *)
Definition or_zero (x : float) : float := if JS.truthy_number x then x else 0%float.
Definition or_zero_int (x : Z) : Z := if bool_decide (x ≠ 0) then x else 0.

(** The third query fails when the sum of the stocks overflows; the row it
    yields holds a 64-bit integer, which the driver hands over as a
    JavaScript number.  Here the stocks are taken to lie in the 64-bit
    range, where the column holds them as INTEGER values. *)
Definition get_api_stats (d : db) : response Stats.t :=
  try_catch (
    let revRow :=
      SQL.IFNULL (SQL.SUM (tx_debit <$> select_where (Eq_ Type_ "invoice") d)) 0%float in
    let expRow :=
      SQL.IFNULL (SQL.SUM (tx_debit <$> select_where (Eq_ Type_ "expense") d)) 0%float in
    total_stock ← SQL.SUM_int (inv_stock <$> inventory d);
    let stockRow := JS.to_double (SQL.IFNULL total_stock 0) in
    Some (Ok {| Stats.revenue := or_zero revRow;
                Stats.expenses := or_zero expRow;
                Stats.profit := (or_zero revRow - or_zero expRow)%float;
                Stats.stock := or_zero_int stockRow |})).

(** ** GET /api/revenue-series *)

Module Series.
Record t := {
  labels : list string;
  months : list string;
  revenue : list JS.rounded;
  expenses : list JS.rounded
}.
End Series.

(** The loop [for (let i = n-1; i >= 0; i--)] that pushes one "YYYY-MM" key
    per turn; [None] when [toISOString] throws on an invalid date. *)
Fixpoint month_keys (h : Date.host) (n : nat) : option (list string) :=
  match n with
  | O => Some []
  | S i =>
      d ← Date.first_of_month h (Date.getFullYear h) (Date.getMonth h - Z.of_nat i);
      rest ← month_keys h i;
      Some (JS.slice0 7 (Date.toISOString d) :: rest)
  end.

(** [months[0] + '-01'] *)
Definition lower_bound (months : list string) : string :=
  default "undefined" (head months) +:+ "-01".

(** The grouped query: month and summed debit of the transactions of type
    [ty] dated at or after [lower]. *)
Definition monthly_rows (ty lower : string) (d : db) : list (string * float) :=
  (λ g, (g.1, SQL.IFNULL (SQL.SUM (tx_debit <$> g.2)) 0%float)) <$>
    SQL.group_by (λ t, SQL.substr1 7 (tx_date t))
      (select_where (And (Eq_ Type_ ty) (Ge Date_ lower)) d).

(** [const map = {}; rows.forEach(r => map[r.month] = r.amount)] *)
Definition to_map (rows : list (string * float)) : gmap string float :=
  foldl (λ m r, <[r.1 := r.2]> m) ∅ rows.

(** [map[m] ? Math.round(map[m]) : 0] *)
Definition rounded_or_zero (map : gmap string float) (m : string) : JS.rounded :=
  match map !! m with
  | Some a => if JS.truthy_number a then JS.Math_round a else JS.Whole 0
  | None => JS.Whole 0
  end.

(** [const [y,mm] = m.split('-'); new Date(y, parseInt(mm,10)-1)...] *)
Definition label_of (m : string) : string :=
  let parts := JS.split "-" m in
  Date.month_label ((λ n, n - 1) <$> (parts !! 1%nat ≫= JS.parseInt)).

Definition get_api_revenue_series (h : Date.host) (months_param : option string)
    (d : db) : response Series.t :=
  try_catch (
    let monthsCount := JS.parseInt (JS.or_string months_param "6") in
    months ← month_keys h (Z.to_nat (default 0 monthsCount));
    let revMap := to_map (monthly_rows "invoice" (lower_bound months) d) in
    let expMap := to_map (monthly_rows "expense" (lower_bound months) d) in
    Some (Ok {| Series.labels := label_of <$> months;
                Series.months := months;
                Series.revenue := rounded_or_zero revMap <$> months;
                Series.expenses := rounded_or_zero expMap <$> months |})).

(** ** GET /api/category-sales *)

Record category_total := { name : string; total : float }.

(** The sales rows that satisfy the ON clause for category [c]:
    [cs.category_id = c.id AND cs.month = ?]. *)
Definition matching_sales (month : string) (d : db) (c : category)
    : list category_sale :=
  filter (λ cs, cs_category_id cs = cat_id c ∧ cs_month cs = month)
    (category_sales d).

(** The rows [c] contributes to the LEFT JOIN: one per matching sale, or a
    single row with NULL in the sale's columns when there is none. *)
Definition join_rows (month : string) (d : db) (c : category)
    : list (category * option category_sale) :=
  match matching_sales month d c with
  | [] => [(c, None)]
  | ms => (λ cs, (c, Some cs)) <$> ms
  end.

(** [categories c LEFT JOIN category_sales cs ON ...] *)
Definition left_join (month : string) (d : db)
    : list (category * option category_sale) :=
  categories d ≫= join_rows month d.

(** [(new Date()).toISOString().slice(0,7)] *)
Definition current_month (h : Date.host) : string :=
  JS.slice0 7 (Date.iso_year (Date.getUTCFullYear h) +:+ "-" +:+
               Date.pad_left 2 (Date.decimal (Date.getUTCMonth h + 1))).

(** [ORDER BY total DESC] *)
Definition total_desc (a b : category_total) : Prop :=
  SQL.real_le (total b) (total a).

#[global] Instance total_desc_dec : RelDecision total_desc.
Proof. intros a b. unfold total_desc, SQL.real_le. apply _. Defined.

Definition get_api_category_sales (h : Date.host) (month_param : option string)
    (d : db) : response (list category_total) :=
  try_catch (
    let month := JS.or_string month_param (current_month h) in
    let groups := SQL.group_by (λ r, cat_id r.1) (left_join month d) in
    let rows :=
      (λ g : Z * list (category * option category_sale),
         {| name := from_option (λ r, cat_name r.1) EmptyString (head g.2);
            total := SQL.IFNULL (SQL.SUM ((λ r : category * option category_sale, cs_amount <$> r.2) <$> g.2)) 0%float |})
        <$> groups in
    Some (Ok (SQL.order_by total_desc rows))).

(** ** GET /api/transactions *)

(** [ORDER BY date DESC, id DESC] *)
Definition date_id_desc (a b : transaction) : Prop :=
  (tx_date a ≠ tx_date b ∧ (tx_date b ≤ tx_date a)%string) ∨
  (tx_date a = tx_date b ∧ tx_id b ≤ tx_id a).

#[global] Instance date_id_desc_dec : RelDecision date_id_desc.
Proof. intros a b. unfold date_id_desc. apply _. Defined.

(** The statement text grows with the filters that are present:
    [if (type) sql += ' AND type = ?'] and
    [if (q) sql += ' AND (reference LIKE ? OR account LIKE ? OR date LIKE ?)']
    with the pattern [`%${q}%`]. *)
Definition list_where (q type_ : string) : condition :=
  let sql := Always in
  let sql := if JS.truthy_string type_ then And sql (Eq_ Type_ type_) else sql in
  if JS.truthy_string q then
    let like := "%" +:+ q +:+ "%" in
    And sql (Or (Like Reference like) (Or (Like Account like) (Like Date_ like)))
  else sql.

(** A value of [req.query]: absent, one text, or -- for a repeated
    parameter and for the bracket syntax -- an array or object, of which
    [shown] is the text [String(x)].  An array or object is truthy and has
    no [trim] method. *)
Inductive query_value := Absent | Text (s : string) | Structured (shown : string).

(** [(x || '').trim()]; [None] is the TypeError raised for a value that has
    no [trim]. *)
Definition trimmed (x : query_value) : option string :=
  match x with
  | Absent => Some (JS.trim EmptyString)
  | Text s => Some (JS.trim (JS.or_string (Some s) EmptyString))
  | Structured _ => None
  end.

(** [parseInt(x || d, 10)], which reads the text of its argument. *)
Definition parsed (x : query_value) (d : string) : option Z :=
  match x with
  | Absent => JS.parseInt d
  | Text s => JS.parseInt (JS.or_string (Some s) d)
  | Structured shown => JS.parseInt shown
  end.

(** A [limit] or [offset] that parses to NaN is bound as NULL, and one of
    magnitude 2^63 or more as a REAL value that is no 64-bit integer: the
    engine refuses both ("datatype mismatch") and the [catch] branch
    answers, as it does when [trim] is missing. *)
Definition get_api_transactions (q type_ limit offset : query_value) (d : db)
    : response (list transaction) :=
  try_catch (
    q ← trimmed q;
    type_ ← trimmed type_;
    limit ← parsed limit "100";
    offset ← parsed offset "0";
    limit ← SQL.must_be_int limit;
    offset ← SQL.must_be_int offset;
    Some (Ok (SQL.limit_offset limit offset
                (SQL.order_by date_id_desc (select_where (list_where q type_) d))))).

(** ** POST, PUT and DELETE /api/transactions *)

(** A property of the JSON body: absent, [null], or a value of the type of
    the column it feeds. *)
Inductive field (A : Type) := Undefined | Null | Value (a : A).
Arguments Undefined {A}.
Arguments Null {A}.
Arguments Value {A} a.

Record body := {
  date : field string;
  reference : field string;
  type : field string;
  account : field string;
  debit : field float;
  credit : field float
}.

(** [!x] on a text property. *)
Definition not_ (x : field string) : bool :=
  match x with
  | Value s => negb (JS.truthy_string s)
  | Undefined | Null => true
  end.

Definition text (x : field string) : string :=
  match x with Value s => s | Undefined | Null => EmptyString end.

(** The destructuring default [debit = 0] replaces [undefined] only; [null]
    is bound as NULL, and a number is stored as the REAL column holds it. *)
Definition number_or_0 (x : field float) : option float :=
  match x with
  | Undefined => Some 0%float
  | Null => None
  | Value v => SQL.real v
  end.

Definition missing_required (b : body) : bool :=
  not_ (date b) || not_ (reference b) || not_ (type b) || not_ (account b).

(** The rowid AUTOINCREMENT gives to the next row: one more than the largest
    rowid the table has ever held. *)
Definition next_rowid (d : db) : Z :=
  Z.max (transactions_seq d) (foldr Z.max 0 (tx_id <$> transactions d)) + 1.

Definition insert_transaction (h : Date.host) (b : body) (d : db) : Z * db :=
  let lastID := next_rowid d in
  let row := {| tx_id := lastID;
                tx_date := text (date b);
                tx_reference := text (reference b);
                tx_type := text (type b);
                tx_account := text (account b);
                tx_debit := number_or_0 (debit b);
                tx_credit := number_or_0 (credit b);
                tx_created_at := Date.datetime_now h |} in
  (lastID, set_transactions (transactions d ++ [row]) lastID d).

Definition post_api_transactions (h : Date.host) (b : body) (d : db)
    : db * response (option transaction) :=
  if missing_required b then (d, BadRequest "Missing required fields")
  else
    let '(lastID, d') := insert_transaction h b d in
    let newRow := getAsync (IdEq (Some lastID)) d' in
    (d', Ok newRow).

Record written := { changes : Z; data : option transaction }.

Definition update_transaction (b : body) (id : option Z) (d : db) : Z * db :=
  let hit := λ t, holds (IdEq id) t in
  let set t := {| tx_id := tx_id t;
                  tx_date := text (date b);
                  tx_reference := text (reference b);
                  tx_type := text (type b);
                  tx_account := text (account b);
                  tx_debit := number_or_0 (debit b);
                  tx_credit := number_or_0 (credit b);
                  tx_created_at := tx_created_at t |} in
  (Z.of_nat (length (filter hit (transactions d))),
   set_transactions ((λ t, if hit t then set t else t) <$> transactions d)
     (transactions_seq d) d).

Definition put_api_transactions_id (id_param : string) (b : body) (d : db)
    : db * response written :=
  let id := JS.parseInt id_param in
  if missing_required b then (d, BadRequest "Missing required fields")
  else
    let '(n, d') := update_transaction b id d in
    let row := getAsync (IdEq id) d' in
    (d', Ok {| changes := n; data := row |}).

Definition delete_transaction (id : option Z) (d : db) : Z * db :=
  let hit := λ t, holds (IdEq id) t in
  (Z.of_nat (length (filter hit (transactions d))),
   set_transactions (filter (λ t, ¬ hit t) (transactions d)) (transactions_seq d) d).

Definition delete_api_transactions_id (id_param : string) (d : db)
    : db * response Z :=
  let id := JS.parseInt id_param in
  let '(n, d') := delete_transaction id d in
  (d', Ok n).

(** ** GET /api/transactions/export *)

(** [ORDER BY date DESC] *)
Definition date_desc (a b : transaction) : Prop := (tx_date b ≤ tx_date a)%string.

#[global] Instance date_desc_dec : RelDecision date_desc.
Proof. intros a b. unfold date_desc. apply _. Defined.

Definition dquote : ascii := "034"%char.
Definition line_feed : ascii := "010"%char.
Definition newline : string := String line_feed EmptyString.

Definition header_names : string := "Date,Reference,Type,Account,Debit,Credit".

(** [`Date,Reference,Type,Account,Debit,Credit\n`] *)
Definition csv_header : string := header_names +:+ newline.

(** [`${v}`] of a numeric column: the decimal text of the number, which the
    embedding takes as the parameter [show], or "null". *)
Definition number_text (show : float → string) (v : option float) : string :=
  match v with Some x => show x | None => "null" end.

Definition escape_quotes (s : string) : string :=
  JS.replace_all dquote (String dquote (String dquote EmptyString)) s.

Definition quoted (v : string) : string :=
  String dquote v +:+ String dquote EmptyString.

Definition csv_fields (show : float → string) (r : transaction) : list string :=
  [ tx_date r;
    escape_quotes (tx_reference r);
    tx_type r;
    escape_quotes (tx_account r);
    number_text show (tx_debit r);
    number_text show (tx_credit r) ].

Definition csv_line (show : float → string) (r : transaction) : string :=
  JS.join "," (quoted <$> csv_fields show r).

(** The chunks passed to [res.write], in order. *)
Definition get_api_transactions_export (show : float → string) (d : db)
    : list string :=
  let rows := SQL.order_by date_desc (transactions d) in
  csv_header :: ((λ r, csv_line show r +:+ newline) <$> rows).

(** ** GET /api/inventory and PUT /api/inventory/:id *)

Definition set_inventory (items : list inventory_item) (d : db) : db :=
  {| transactions := transactions d; transactions_seq := transactions_seq d;
     inventory := items; categories := categories d;
     category_sales := category_sales d |}.

(** [ORDER BY stock ASC]: NULL sorts before every number. *)
Definition stock_asc (a b : inventory_item) : Prop :=
  match inv_stock a, inv_stock b with
  | None, _ => True
  | Some _, None => False
  | Some x, Some y => x ≤ y
  end.

#[global] Instance stock_asc_dec : RelDecision stock_asc.
Proof.
  intros a b. unfold stock_asc.
  destruct (inv_stock a), (inv_stock b); apply _.
Defined.

Definition get_api_inventory (d : db) : response (list inventory_item) :=
  try_catch (Some (Ok (SQL.order_by stock_asc (inventory d)))).

(** The body of PUT /api/inventory/:id.  A number of [stock] or
    [reorder_level] is an integer JSON number, read back from the INTEGER
    column as that number; numbers with a fraction and texts are outside
    the model, and so is, for the sum of the stocks, an integer outside the
    64-bit range, which the column holds as a REAL value. *)
Module Inventory.
Record body := {
  stock : field Z;
  reorder_level : field Z;
  status : field string
}.

Record written := { changes : Z; data : option inventory_item }.
End Inventory.

(** The value bound for a statement parameter: an [undefined] one is left
    unbound, which the engine reads as NULL, and [null] is bound as NULL. *)
Definition bound {A} (x : field A) : option A :=
  match x with
  | Value v => Some v
  | Undefined | Null => None
  end.

(** [WHERE id = ?] over [inventory]. *)
Definition inventory_hit (id : option Z) (i : inventory_item) : bool :=
  bool_decide (id = Some (inv_id i)).

(** [UPDATE inventory SET stock = ?, reorder_level = ?, status = ? WHERE
    id = ?]: no property of the body is checked. *)
Definition restock (b : Inventory.body) (i : inventory_item) : inventory_item :=
  {| inv_id := inv_id i; inv_sku := inv_sku i; inv_name := inv_name i;
     inv_stock := bound (Inventory.stock b);
     inv_reorder_level := bound (Inventory.reorder_level b);
     inv_status := bound (Inventory.status b) |}.

Definition update_inventory (b : Inventory.body) (id : option Z) (d : db)
    : Z * db :=
  (Z.of_nat (length (filter (λ i, inventory_hit id i) (inventory d))),
   set_inventory
     ((λ i, if inventory_hit id i then restock b i else i) <$> inventory d) d).

Definition put_api_inventory_id (id_param : string) (b : Inventory.body) (d : db)
    : db * response Inventory.written :=
  let id := JS.parseInt id_param in
  let '(n, d') := update_inventory b id d in
  let row := head (filter (λ i, inventory_hit id i) (inventory d')) in
  (d', Ok {| Inventory.changes := n; Inventory.data := row |}).

(** ** Sequences of writes to [transactions] *)

Inductive request :=
| POST (b : body)
| PUT (id_param : string) (b : body)
| DELETE (id_param : string).

(** The database after a request, and the rowid the request was given when
    it created a row. *)
Definition serve (h : Date.host) (r : request) (d : db) : db * option Z :=
  match r with
  | POST b =>
      let '(d', res) := post_api_transactions h b d in
      (d', match res with Ok (Some row) => Some (tx_id row) | _ => None end)
  | PUT id_param b => ((put_api_transactions_id id_param b d).1, None)
  | DELETE id_param => ((delete_api_transactions_id id_param d).1, None)
  end.

(** The database after the requests [rs], served in order, and the rowids
    given out on the way. *)
Fixpoint serve_all (h : Date.host) (rs : list request) (d : db) : db * list Z :=
  match rs with
  | [] => (d, [])
  | r :: rs' =>
      let '(d', created) := serve h r d in
      let '(d'', ids) := serve_all h rs' d' in
      (d'', from_option (λ i, [i]) [] created ++ ids)
  end.

(** ** Notions the statements are phrased in *)

(** The sum of doubles in double arithmetic, taken from 0 in the order of
    the list. *)
Definition double_sum (xs : list float) : float := foldl PrimFloat.add 0%float xs.

(** A double that is a zero or NaN. *)
Definition zero_or_nan (x : float) : bool :=
  match Prim2SF x with
  | S754_zero _ | S754_nan => true
  | S754_infinity _ | S754_finite _ _ _ => false
  end.

(** The total of the values of a nullable REAL column: the double sum of
    those that are not NULL, where a sum that is a zero or NaN counts as
    the number 0. *)
Definition total_of (vs : list (option float)) : float :=
  let s := double_sum (omap id vs) in
  if zero_or_nan s then 0%float else s.


Definition sum_Z (xs : list Z) : Z := foldr Z.add 0 xs.

(** Total of debit over the transactions that satisfy [P], in row order. *)
Definition sum_debit (P : transaction → Prop) `{∀ t, Decision (P t)}
    (rows : list transaction) : float :=
  total_of (tx_debit <$> filter P rows).



(** The stocks that are not NULL, in row order, and their sum. *)
Definition stocks (items : list inventory_item) : list Z := omap inv_stock items.

Definition sum_stock (items : list inventory_item) : Z := sum_Z (stocks items).

(** Every stock is a 64-bit integer, as an INTEGER column holds it. *)
Definition integer_stocks (items : list inventory_item) : Prop :=
  ∀ v, v ∈ stocks items → - 2 ^ 63 ≤ v < 2 ^ 63.

(** Adding up the stocks in row order, some partial sum leaves the 64-bit
    range. *)
Definition stock_overflows (items : list inventory_item) : Prop :=
  ∃ k : nat, ¬ (- 2 ^ 63 ≤ sum_Z (take k (stocks items)) < 2 ^ 63).

(** The statistics of a database: the totals of debit by type, their
    difference, and the double nearest to the sum of the stocks. *)
Definition totals (d : db) : Stats.t :=
  {| Stats.revenue := sum_debit (λ t, tx_type t = "invoice") (transactions d);
     Stats.expenses := sum_debit (λ t, tx_type t = "expense") (transactions d);
     Stats.profit :=
       (sum_debit (λ t, tx_type t = "invoice") (transactions d) -
        sum_debit (λ t, tx_type t = "expense") (transactions d))%float;
     Stats.stock := JS.to_double (sum_stock (inventory d)) |}.

(** The first [n] characters of a text; all of it when it is shorter. *)
Fixpoint first_chars (n : nat) (s : string) : string :=
  match n, s with
  | S n', String c s' => String c (first_chars n' s')
  | _, _ => EmptyString
  end.

(** The "YYYY-MM" prefix of a date: the first seven characters of the text
    that precedes its first NUL. *)
Definition month_prefix (date : string) : string :=
  first_chars 7 (SQL.c_string date).

(** Membership of a transaction in the bucket of month [m] as the
    specification words it: its type is [ty] and the "YYYY-MM" prefix of
    its date is [m]. *)
Definition in_month (ty m : string) (t : transaction) : Prop :=
  tx_type t = ty ∧ month_prefix (tx_date t) = m.

#[global] Instance in_month_dec ty m t : Decision (in_month ty m t).
Proof. unfold in_month. apply _. Defined.

(** The same, restricted to the dates that are not below the bound [lower]
    in the order of TEXT values. *)
Definition in_bucket (ty lower m : string) (t : transaction) : Prop :=
  tx_type t = ty ∧ (lower ≤ tx_date t)%string ∧ month_prefix (tx_date t) = m.

#[global] Instance in_bucket_dec ty lower m t : Decision (in_bucket ty lower m t).
Proof. unfold in_bucket. apply _. Defined.

(** [r] is a double nearest to the integer [z]: an integer with a
    significand of at most 53 bits that is at most half a unit of its last
    place away from [z]. *)
Definition nearest_double (z r : Z) : Prop :=
  ∃ m e : Z, 0 ≤ e ∧ Z.abs m ≤ 2 ^ 53 ∧ r = m * 2 ^ e
             ∧ 2 * Z.abs (z - r) ≤ 2 ^ e ∧ (0 < e → 2 ^ 52 ≤ Z.abs m).


(** [q] occurs in [s] at the front, resp. somewhere, for a comparison [eqc]
    of characters. *)
Fixpoint prefix_by (eqc : ascii → ascii → bool) (q s : string) : bool :=
  match q, s with
  | EmptyString, _ => true
  | String c q', String d s' => eqc c d && prefix_by eqc q' s'
  | String _ _, EmptyString => false
  end.

Fixpoint contains_by (eqc : ascii → ascii → bool) (q s : string) : bool :=
  prefix_by eqc q s ||
  match s with
  | String _ s' => contains_by eqc q s'
  | EmptyString => false
  end.

(** Case-sensitive substring, as the specification words the search. *)
Definition contains (q s : string) : bool :=
  contains_by (λ c d, bool_decide (c = d)) q s.

(** The place of a character in a text, counted from 0. *)
Fixpoint index_of (c : ascii) (s : string) : option nat :=
  match s with
  | String d s' => if decide (d = c) then Some 0%nat else S <$> index_of c s'
  | EmptyString => None
  end.

(** The place of an ASCII letter in the alphabet, whatever its case. *)
Definition letter_rank (c : ascii) : option nat :=
  match index_of c "ABCDEFGHIJKLMNOPQRSTUVWXYZ" with
  | Some i => Some i
  | None => index_of c "abcdefghijklmnopqrstuvwxyz"
  end.

(** The same character, or the same ASCII letter in another case. *)
Definition same_letter (c d : ascii) : bool :=
  bool_decide (c = d) ||
  match letter_rank c, letter_rank d with
  | Some i, Some j => bool_decide (i = j)
  | _, _ => false
  end.

(** Substring up to the case of ASCII letters. *)
Definition contains_nocase (q s : string) : bool := contains_by same_letter q s.

(** A pattern of LIKE matches a text: [%] stands for any run of characters,
    [_] for any one character, and every other character for itself up to
    the case of ASCII letters. *)
Inductive like_matches : string → string → Prop :=
| like_end : like_matches EmptyString EmptyString
| like_any_none p s :
    like_matches p s → like_matches (String "%" p) s
| like_any_more p c s :
    like_matches (String "%" p) s → like_matches (String "%" p) (String c s)
| like_one p c s :
    like_matches p s → like_matches (String "_" p) (String c s)
| like_char a p c s :
    a ≠ "%"%char → a ≠ "_"%char → same_letter a c = true →
    like_matches p s → like_matches (String a p) (String c s).

(** All characters. *)
Definition all_ascii : list ascii := ascii_of_nat <$> seq 0 256.

Definition is_wildcard (c : ascii) : bool :=
  bool_decide (c = "%"%char) || bool_decide (c = "_"%char).

Fixpoint no_wildcard (q : string) : bool :=
  match q with
  | String c q' => negb (is_wildcard c) && no_wildcard q'
  | EmptyString => true
  end.

(** The rows a search for [q] with type filter [ty] selects; an empty [q] or
    [ty] selects everything. *)
Definition listed (sub : string → string → bool) (q ty : string)
    (t : transaction) : Prop :=
  (ty = EmptyString ∨ tx_type t = ty) ∧
  (q = EmptyString ∨
   sub q (tx_reference t) ∨ sub q (tx_account t) ∨ sub q (tx_date t)).

#[global] Instance listed_dec sub q ty t : Decision (listed sub q ty t).
Proof. unfold listed. apply _. Defined.

Fixpoint all_white_space (s : string) : bool :=
  match s with
  | String c s' => JS.is_white_space c && all_white_space s'
  | EmptyString => true
  end.

(** A double that is one of the two zeros, resp. NaN. *)
Definition is_zero (x : float) : Prop := ∃ s, Prim2SF x = S754_zero s.
Definition is_NaN (x : float) : Prop := Prim2SF x = S754_nan.

(** The value [v] a REAL column holds for the property [x] of a body that
    defaults to 0: 0 when the property is omitted, NULL for [null], and for
    a number the number itself, where a zero is held as 0 and NaN, which no
    JSON text denotes, as NULL. *)
Definition stored_number (x : field float) (v : option float) : Prop :=
  match x with
  | Undefined => v = Some 0%float
  | Null => v = None
  | Value a =>
      (is_zero a → v = Some 0%float) ∧ (is_NaN a → v = None)
      ∧ (¬ is_zero a → ¬ is_NaN a → v = Some a)
  end.

(** The value [v] a column holds for the property [x] of a body that has
    no default: NULL when the property is omitted or [null]. *)
Definition stored_value {A} (x : field A) (v : option A) : Prop :=
  match x with
  | Undefined | Null => v = None
  | Value a => v = Some a
  end.

(** A required property that is missing ([undefined] or [null]) or empty. *)
Definition missing_or_empty (x : field string) : Prop :=
  x = Undefined ∨ x = Null ∨ x = Value EmptyString.

Fixpoint count_char (c : ascii) (s : string) : nat :=
  match s with
  | String d s' => (if decide (d = c) then 1 else 0) + count_char c s'
  | EmptyString => 0
  end.

(** A text without a line feed. *)
Definition one_line (s : string) : Prop := count_char line_feed s = 0%nat.

(** Reading an escaped field back: each pair of double quotes stands for
    one. *)
Fixpoint unescape_quotes (s : string) : string :=
  match s with
  | String c t =>
      match t with
      | String c' s' =>
          if decide (c = dquote ∧ c' = dquote) then String dquote (unescape_quotes s')
          else String c (unescape_quotes t)
      | EmptyString => String c EmptyString
      end
  | EmptyString => EmptyString
  end.




(** The key "YYYY-MM" of the calendar month [m] (1..12) of year [y]. *)
Definition month_key (y m : Z) : string := JS.slice0 7 (Date.iso_date y m 1).


(** The buckets the specification describes for a host at local year [Y] and month
    index [M]: the keys of the [n] consecutive calendar months that end at
    the current one, oldest first. *)
Definition months_ending_now (Y M : Z) (n : nat) : list string :=
  (λ i : nat, month_key (Y + (M - Z.of_nat i) / 12) ((M - Z.of_nat i) mod 12 + 1))
    <$> reverse (seq 0 n).

(** The month before month [m] (1..12) of year [y]. *)
Definition previous_month (y m : Z) : Z * Z :=
  if m =? 1 then (y - 1, 12) else (y, m - 1).

(** The day before the first of a month lies in the previous month. *)
Definition eve_in_previous_month (y m : Z) : bool :=
  let '(y', m', _) := Date.civil_from_days (Date.days_from_civil y m 1 - 1) in
  bool_decide ((y', m') = previous_month y m).

(** The keys of the [n] consecutive calendar months that end one month
    before the current one, oldest first. *)
Definition months_ending_before (Y M : Z) (n : nat) : list string :=
  (λ i : nat,
     let '(y, m) := previous_month (Y + (M - Z.of_nat i) / 12)
                      ((M - Z.of_nat i) mod 12 + 1) in
     month_key y m)
    <$> reverse (seq 0 n).

(** Day of the 400-year era for the first of month [m] in year-of-era
    [yoe], and the check that the conversion back to a civil date recovers
    them. *)
Definition doe_of (yoe m : Z) : Z :=
  yoe * 365 + yoe / 4 - yoe / 100 + ((153 * ((m + 9) mod 12) + 2) / 5 + 1 - 1).

Definition era_roundtrip (yoe m : Z) : bool :=
  let doe := doe_of yoe m in
  let yoe' := (doe - doe / 1460 + doe / 36524 - doe / 146096) / 365 in
  let doy := doe - (365 * yoe' + yoe' / 4 - yoe' / 100) in
  let mp := (5 * doy + 2) / 153 in
  let d := doy - (153 * mp + 2) / 5 + 1 in
  let m' := if mp <? 10 then mp + 3 else mp - 9 in
  (0 <=? doe) && (doe <? 146097) && (yoe' =? yoe) && (m' =? m) && (d =? 1).

(** A host with an offset within a day of UTC, in a four-digit year past
    99. *)
Definition ordinary_host (h : Date.host) : Prop :=
  (∀ y m, -1440 < Date.tz_offset h y m < 1440) ∧
  100 ≤ Date.getFullYear h ≤ 9999 ∧
  0 ≤ Date.getMonth h ≤ 11.

(** ** Sample hosts and databases *)

(** A host at 2 November 2026: one on UTC, one two hours east of it all
    year. *)
Definition host_utc : Date.host :=
  {| Date.getFullYear := 2026; Date.getMonth := 10;
     Date.getUTCFullYear := 2026; Date.getUTCMonth := 10;
     Date.tz_offset := λ _ _, 0;
     Date.datetime_now := "2026-11-02 09:30:00" |}.

Definition host_east : Date.host :=
  {| Date.getFullYear := 2026; Date.getMonth := 10;
     Date.getUTCFullYear := 2026; Date.getUTCMonth := 10;
     Date.tz_offset := λ _ _, 120;
     Date.datetime_now := "2026-11-02 09:30:00" |}.

Definition sample_tx (id : Z) (date reference type account : string)
    (debit : float) : transaction :=
  {| tx_id := id; tx_date := date; tx_reference := reference; tx_type := type;
     tx_account := account; tx_debit := Some debit;
     tx_credit := Some 0%float; tx_created_at := "2026-11-01 08:00:00" |}.

Definition with_transactions (rows : list transaction) : db :=
  set_transactions rows (foldr Z.max 0 (tx_id <$> rows)) empty_db.


(** One invoice whose date is not a calendar date. *)
Definition db_free_text_date : db :=
  with_transactions [sample_tx 1 "week 45" "INV-1" "invoice" "Sales" 100].

Definition db_ledger : db :=
  with_transactions
    [ sample_tx 1 "2026-10-05" "INV-1" "invoice" "Sales" 100;
      sample_tx 2 "2026-11-03" "EXP-1" "expense" "Rent" 40;
      sample_tx 3 "2026-11-03" "inv-2" "invoice" "Sales" 60 ].


Definition empty_series : Series.t :=
  {| Series.labels := []; Series.months := [];
     Series.revenue := []; Series.expenses := [] |}.

(** A date that starts with a decimal digit, as every "YYYY-MM-DD" does. *)
Definition starts_with_digit (s : string) : Prop :=
  match s with
  | String c _ => is_Some (Ascii.is_nat c)
  | EmptyString => False
  end.


Definition body_invoice : body :=
  {| date := Value "2026-11-02"; reference := Value "INV-9";
     type := Value "invoice"; account := Value "Sales";
     debit := Value 25%float; credit := Undefined |}.

(** A rendering of numbers, for the examples: the integer part in decimal. *)
Definition show_whole (x : float) : string :=
  Date.decimal (Qfloor (default (Q2Qc 0) (JS.exact x))).




(** ** Notions of the further properties *)

(** A query parameter that is absent or one text. *)
Definition given (x : option string) : query_value :=
  match x with Some s => Text s | None => Absent end.

(** A query parameter that is an array or object. *)
Definition is_structured (x : query_value) : Prop := ∃ shown, x = Structured shown.

(** The text read for the number of the parameter [x] with default [d]:
    the default for an absent or empty parameter, and for an array or
    object its rendering as a text. *)
Definition read_text (x : query_value) (d : string) : string :=
  match x with
  | Absent | Text EmptyString => d
  | Text s => s
  | Structured shown => shown
  end.

(** What a text was parsed to is not an integer below 2^63 - 512 in
    magnitude: it is NaN, or an integer from there on. *)
Definition unusable (v : option Z) : Prop :=
  ∀ z, v = Some z → 2 ^ 63 - 512 ≤ Z.abs z.

(** The rows of GET /api/transactions before LIMIT and OFFSET apply. *)
Definition listing (q type_ : option string) (d : db) : list transaction :=
  SQL.order_by date_id_desc
    (select_where (list_where (JS.trim (JS.or_string q EmptyString))
                              (JS.trim (JS.or_string type_ EmptyString))) d).

(** The row PUT /api/transactions/:id leaves in the place of [t]. *)
Definition rewritten (b : body) (t : transaction) : transaction :=
  {| tx_id := tx_id t;
     tx_date := text (date b);
     tx_reference := text (reference b);
     tx_type := text (type b);
     tx_account := text (account b);
     tx_debit := number_or_0 (debit b);
     tx_credit := number_or_0 (credit b);
     tx_created_at := tx_created_at t |}.

(** The rowids of [transactions] are pairwise distinct and none is above
    the AUTOINCREMENT counter. *)
Definition well_keyed (d : db) : Prop :=
  NoDup (tx_id <$> transactions d) ∧
  ∀ t, t ∈ transactions d → tx_id t ≤ transactions_seq d.

Fixpoint all_percent (s : string) : bool :=
  match s with
  | String c s' => bool_decide (c = "%"%char) && all_percent s'
  | EmptyString => true
  end.

Definition db_stockroom : db :=
  set_inventory
    [ {| inv_id := 1; inv_sku := "PEN"; inv_name := "Pen"; inv_stock := Some 40;
         inv_reorder_level := Some 10; inv_status := Some "ok" |};
      {| inv_id := 2; inv_sku := "INK"; inv_name := "Ink"; inv_stock := None;
         inv_reorder_level := Some 5; inv_status := Some "ok" |};
      {| inv_id := 3; inv_sku := "PAD"; inv_name := "Pad"; inv_stock := Some 3;
         inv_reorder_level := Some 5; inv_status := Some "low" |} ]
    empty_db.

Definition body_restock : Inventory.body :=
  {| Inventory.stock := Value 25; Inventory.reorder_level := Undefined;
     Inventory.status := Value "ok" |}.




(** The row POST /api/transactions stores. *)
Definition created (h : Date.host) (b : body) (d : db) : transaction :=
  {| tx_id := next_rowid d;
     tx_date := text (date b);
     tx_reference := text (reference b);
     tx_type := text (type b);
     tx_account := text (account b);
     tx_debit := number_or_0 (debit b);
     tx_credit := number_or_0 (credit b);
     tx_created_at := Date.datetime_now h |}.

Definition body_rent : body :=
  {| date := Value "2026-11-04"; reference := Value "EXP-2"; type := Value "expense";
     account := Value "Rent"; debit := Value 15%float; credit := Undefined |}.

Definition body_no_account : body :=
  {| date := Value "2026-11-04"; reference := Value "EXP-3"; type := Value "expense";
     account := Value EmptyString; debit := Undefined; credit := Undefined |}.

(** * Properties *)

(** ** Aggregates of the engine *)

Lemma truthy_number_spec (x : float) : JS.truthy_number x = negb (zero_or_nan x).
Proof. unfold JS.truthy_number, zero_or_nan. by destruct (Prim2SF x). Qed.

(** [IFNULL(SUM(x), 0)] is the double sum of the values that are not NULL,
    with 0 for a sum that is a zero or NaN, and [|| 0] leaves it as it is. *)
Lemma IFNULL_SUM (vs : list (option float)) :
  SQL.IFNULL (SQL.SUM vs) 0%float = total_of vs.
Proof.
  unfold SQL.SUM, SQL.IFNULL, total_of, double_sum.
  destruct (omap id vs) as [|x xs]; [done|].
  set (s := foldl PrimFloat.add 0%float (x :: xs)).
  unfold SQL.real, zero_or_nan. by destruct (Prim2SF s).
Qed.

Lemma or_zero_total_of (vs : list (option float)) :
  or_zero (total_of vs) = total_of vs.
Proof.
  unfold or_zero, total_of.
  destruct (zero_or_nan (double_sum (omap id vs))) eqn:Hs; [done|].
  by rewrite truthy_number_spec, Hs.
Qed.

Lemma total_of_nil : total_of [] = 0%float.
Proof. reflexivity. Qed.

Lemma sum_Z_cons (x : Z) (xs : list Z) : sum_Z (x :: xs) = x + sum_Z xs.
Proof. reflexivity. Qed.

Lemma int64_spec (z : Z) : SQL.int64 z = true ↔ - 2 ^ 63 ≤ z < 2 ^ 63.
Proof. unfold SQL.int64. rewrite andb_true_iff, Z.leb_le, Z.ltb_lt. done. Qed.

(** 64-bit addition in row order gives the sum when every partial sum is in
    the range, and fails otherwise. *)
Lemma add_all_Some (acc : Z) (xs : list Z) :
  (∀ k : nat, - 2 ^ 63 ≤ acc + sum_Z (take k xs) < 2 ^ 63) →
  SQL.add_all acc xs = Some (acc + sum_Z xs).
Proof.
  unfold sum_Z. revert acc. induction xs as [|x xs IH]; intros acc Hin.
  - simpl. f_equal. lia.
  - simpl. pose proof (Hin 1%nat) as H1. simpl in H1.
    replace (SQL.int64 (acc + x)) with true
      by (symmetry; apply int64_spec; lia).
    rewrite IH.
    + f_equal. lia.
    + intros k. specialize (Hin (S k)). simpl in Hin. lia.
Qed.

Lemma add_all_None (acc : Z) (xs : list Z) :
  - 2 ^ 63 ≤ acc < 2 ^ 63 →
  (∃ k : nat, ¬ (- 2 ^ 63 ≤ acc + sum_Z (take k xs) < 2 ^ 63)) →
  SQL.add_all acc xs = None.
Proof.
  unfold sum_Z. revert acc. induction xs as [|x xs IH]; intros acc Hacc [k Hk].
  - rewrite take_nil in Hk. simpl in Hk. lia.
  - simpl. destruct (SQL.int64 (acc + x)) eqn:Hx; [|done].
    apply int64_spec in Hx. apply IH; [done|].
    destruct k as [|k]; simpl in Hk; [lia|].
    exists k. by replace (acc + x + foldr Z.add 0 (take k xs))
      with (acc + (x + foldr Z.add 0 (take k xs))) by lia.
Qed.

Lemma omap_id_fmap {A B} (f : A → option B) (l : list A) :
  omap id (f <$> l) = omap f l.
Proof. induction l as [|a l IH]; csimpl; [done|]. rewrite IH. by destruct (f a). Qed.

Lemma SUM_int_stock (items : list inventory_item) :
  ¬ stock_overflows items →
  ∃ r, SQL.SUM_int (inv_stock <$> items) = Some r
       ∧ SQL.IFNULL r 0 = sum_stock items.
Proof.
  intros Hin. unfold SQL.SUM_int, sum_stock. rewrite omap_id_fmap.
  fold (stocks items).
  assert (∀ k : nat, - 2 ^ 63 ≤ 0 + sum_Z (take k (stocks items)) < 2 ^ 63) as Hall.
  { intros k. destruct (decide (- 2 ^ 63 ≤ sum_Z (take k (stocks items)) < 2 ^ 63));
      [lia|]. destruct Hin. by exists k. }
  destruct (stocks items) as [|x xs] eqn:Hs; [by eexists|].
  rewrite <- Hs in *. rewrite (add_all_Some 0 _ Hall). by eexists.
Qed.

Lemma SUM_int_overflow (items : list inventory_item) :
  stock_overflows items → SQL.SUM_int (inv_stock <$> items) = None.
Proof.
  intros [k Hk]. unfold SQL.SUM_int. rewrite omap_id_fmap. fold (stocks items).
  destruct (stocks items) as [|x xs] eqn:Hs.
  { rewrite take_nil in Hk. unfold sum_Z in Hk. simpl in Hk. lia. }
  rewrite <- Hs in *. rewrite add_all_None; [done|lia|].
  exists k. by rewrite Z.add_0_l.
Qed.

Lemma or_zero_int_id (x : Z) : or_zero_int x = x.
Proof. unfold or_zero_int. case_bool_decide; lia. Qed.

Lemma select_where_type (ty : string) (d : db) :
  select_where (Eq_ Type_ ty) d = filter (λ t, tx_type t = ty) (transactions d).
Proof.
  unfold select_where. apply list_filter_iff. intros t. simpl.
  by rewrite bool_decide_spec.
Qed.

(** The double nearest to an integer. *)
Lemma to_double_small (z : Z) : Z.abs z ≤ 2 ^ 53 → JS.to_double z = z.
Proof.
  intros Hz.
  destruct (Z.eq_dec z (2 ^ 53)) as [->|]; [by vm_compute|].
  destruct (Z.eq_dec z (- 2 ^ 53)) as [->|]; [by vm_compute|].
  unfold JS.to_double.
  destruct (Z.leb_spec (Z.log2 (Z.abs z) - 52) 0) as [|He]; [done|].
  exfalso.
  assert (0 < Z.abs z) as Hpos.
  { destruct (Z.eq_dec (Z.abs z) 0) as [E|]; [rewrite E in He; simpl in He|]; lia. }
  pose proof (Z.log2_spec _ Hpos) as [Hlo _].
  assert (2 ^ 53 ≤ 2 ^ Z.log2 (Z.abs z)) by (apply Z.pow_le_mono_r; lia).
  lia.
Qed.

Lemma to_double_nearest (z : Z) : nearest_double z (JS.to_double z).
Proof.
  unfold JS.to_double.
  destruct (Z.leb_spec (Z.log2 (Z.abs z) - 52) 0) as [He|He].
  - exists z, 0. assert (Z.abs z < 2 ^ 53).
    { destruct (Z.eq_dec (Z.abs z) 0) as [E|]; [lia|].
      pose proof (Z.log2_spec (Z.abs z) ltac:(lia)) as [_ Hhi].
      eapply Z.lt_le_trans; [exact Hhi|]. apply Z.pow_le_mono_r; lia. }
    repeat split; lia.
  - set (a := Z.abs z) in *. set (e := Z.log2 a - 52) in *.
    assert (0 < a) as Hpos.
    { destruct (Z.eq_dec a 0) as [E|]; [unfold e in He; rewrite E in He; simpl in He|]; lia. }
    pose proof (Z.log2_spec a Hpos) as [Hlo Hhi].
    replace (Z.log2 a) with (e + 52) in Hlo, Hhi by (unfold e; lia).
    replace (Z.succ (e + 52)) with (e + 53) in Hhi by lia.
    rewrite Z.pow_add_r in Hlo, Hhi by lia.
    rewrite Z.shiftr_div_pow2 by lia.
    set (q := a / 2 ^ e).
    assert (0 < 2 ^ e) as Hpow by (apply Z.pow_pos_nonneg; lia).
    rewrite !Z.shiftl_mul_pow2 by lia.
    assert (2 ^ e = 2 * 2 ^ (e - 1)) as Hhalf.
    { replace e with (e - 1 + 1) at 1 by lia. rewrite Z.pow_add_r by lia. lia. }
    rewrite Z.mul_1_l.
    set (half := 2 ^ (e - 1)) in *.
    pose proof (Z.div_mod a (2 ^ e) ltac:(lia)) as Hdm.
    pose proof (Z.mod_pos_bound a (2 ^ e) Hpow) as Hmod.
    fold q in Hdm.
    set (r := a - q * 2 ^ e).
    assert (r = a mod 2 ^ e) as Hr by (unfold r; lia).
    assert (2 ^ 52 ≤ q < 2 ^ 53) as Hq.
    { split.
      - apply Z.div_le_lower_bound; lia.
      - apply Z.div_lt_upper_bound; lia. }
    set (q' := if (half <? r) || ((r =? half) && Z.odd q) then q + 1 else q).
    assert (q ≤ q' ≤ q + 1 ∧ 2 * Z.abs (a - q' * 2 ^ e) ≤ 2 ^ e) as [Hq' Hclose].
    { unfold q'. destruct (Z.ltb_spec half r); simpl.
      - split; [lia|]. rewrite Z.abs_neq; lia.
      - destruct (Z.eqb_spec r half); simpl.
        + destruct (Z.odd q); (split; [lia|]).
          * rewrite Z.abs_neq; lia.
          * rewrite Z.abs_eq; lia.
        + split; [lia|]. rewrite Z.abs_eq; lia. }
    assert ((Z.sgn z = 1 ∧ z = a) ∨ (Z.sgn z = -1 ∧ z = - a)) as Hsign.
    { unfold a in *. destruct z; simpl in *; lia. }
    exists (Z.sgn z * q'), e. clearbody a.
    split; [lia|]. split; [|split; [lia|split]].
    + destruct Hsign as [[-> _]|[-> _]]; lia.
    + destruct Hsign as [[-> ->]|[-> ->]].
      * rewrite Z.mul_1_l. lia.
      * pose proof (Z.abs_opp (a - q' * 2 ^ e)) as Hopp.
        replace (- (a - q' * 2 ^ e)) with (- a - -1 * q' * 2 ^ e) in Hopp by lia.
        lia.
    + intros _. destruct Hsign as [[-> _]|[-> _]]; lia.
Qed.

(** The double nearest to [z] lies strictly between -2^63 and 2^63 exactly
    when [z] is below 2^63 - 512 in magnitude: from there on [z] rounds to
    2^63. *)
Lemma to_double_in_range (z : Z) :
  - 2 ^ 63 < JS.to_double z < 2 ^ 63 ↔ Z.abs z < 2 ^ 63 - 512.
Proof.
  unfold JS.to_double.
  destruct (Z.leb_spec (Z.log2 (Z.abs z) - 52) 0) as [He|He].
  - assert (Z.abs z < 2 ^ 53).
    { destruct (Z.eq_dec (Z.abs z) 0) as [E|]; [lia|].
      pose proof (Z.log2_spec (Z.abs z) ltac:(lia)) as [_ Hhi].
      eapply Z.lt_le_trans; [exact Hhi|]. apply Z.pow_le_mono_r; lia. }
    lia.
  - set (a := Z.abs z) in *. set (e := Z.log2 a - 52) in *.
    assert (0 < a) as Hpos.
    { destruct (Z.eq_dec a 0) as [E|]; [unfold e in He; rewrite E in He; simpl in He|]; lia. }
    pose proof (Z.log2_spec a Hpos) as [Hlo Hhi].
    replace (Z.log2 a) with (e + 52) in Hlo, Hhi by (unfold e; lia).
    replace (Z.succ (e + 52)) with (e + 53) in Hhi by lia.
    rewrite Z.pow_add_r in Hlo, Hhi by lia.
    rewrite Z.shiftr_div_pow2 by lia.
    set (q := a / 2 ^ e).
    assert (0 < 2 ^ e) as Hpow by (apply Z.pow_pos_nonneg; lia).
    rewrite !Z.shiftl_mul_pow2 by lia.
    rewrite Z.mul_1_l.
    pose proof (Z.div_mod a (2 ^ e) ltac:(lia)) as Hdm.
    pose proof (Z.mod_pos_bound a (2 ^ e) Hpow) as Hmod.
    fold q in Hdm.
    set (r := a - q * 2 ^ e).
    assert (r = a mod 2 ^ e) as Hr by (unfold r; lia).
    assert (2 ^ 52 ≤ q < 2 ^ 53) as Hq.
    { split.
      - apply Z.div_le_lower_bound; lia.
      - apply Z.div_lt_upper_bound; lia. }
    set (q' := if (2 ^ (e - 1) <? r) || ((r =? 2 ^ (e - 1)) && Z.odd q) then q + 1 else q).
    assert (- 2 ^ 63 < Z.sgn z * (q' * 2 ^ e) < 2 ^ 63 ↔ q' * 2 ^ e < 2 ^ 63) as ->.
    { assert (q ≤ q' ≤ q + 1) by (unfold q'; destruct (_ || _); lia).
      assert (0 < q' * 2 ^ e) by nia.
      assert (Z.sgn z = 1 ∨ Z.sgn z = -1) as [->| ->]
        by (unfold a in Hpos; destruct z; simpl in *; lia); lia. }
    destruct (Z_lt_le_dec e 10) as [Hsmall|Hbig].
    + assert (2 ^ e ≤ 2 ^ 9) by (apply Z.pow_le_mono_r; lia).
      assert (q' ≤ 2 ^ 53) by (unfold q'; destruct (_ || _); lia).
      change (2 ^ 9) with 512 in *. split; intros _; nia.
    + destruct (Z.eq_dec e 10) as [E|Hne].
      * unfold q'. clearbody r q a. rewrite E in *.
        change (2 ^ (10 - 1)) with 512. change (2 ^ 10) with 1024 in *.
        destruct (Z.ltb_spec 512 r); simpl.
        { split; intros; lia. }
        destruct (Z.eqb_spec r 512); simpl.
        { destruct (Z.odd q) eqn:Hodd; [split; intros; lia|].
          assert (q ≠ 2 ^ 53 - 1) by (intros ->; discriminate Hodd).
          split; intros; lia. }
        split; intros; lia.
      * assert (2 ^ 11 ≤ 2 ^ e) by (apply Z.pow_le_mono_r; lia).
        assert (q ≤ q') by (unfold q'; destruct (_ || _); lia).
        change (2 ^ 11) with 2048 in *. split; intros; nia.
Qed.

(** ** GET /api/stats *)

Lemma get_api_stats_Ok (d : db) :
  ¬ stock_overflows (inventory d) →
  get_api_stats d =
  Ok {| Stats.revenue := sum_debit (λ t, tx_type t = "invoice") (transactions d);
        Stats.expenses := sum_debit (λ t, tx_type t = "expense") (transactions d);
        Stats.profit :=
          (sum_debit (λ t, tx_type t = "invoice") (transactions d) -
           sum_debit (λ t, tx_type t = "expense") (transactions d))%float;
        Stats.stock := JS.to_double (sum_stock (inventory d)) |}.
Proof.
  intros Hin. destruct (SUM_int_stock _ Hin) as (r & Hsum & Hr).
  unfold get_api_stats, try_catch, sum_debit. rewrite Hsum. simpl.
  rewrite Hr, !IFNULL_SUM, !or_zero_total_of, or_zero_int_id.
  by rewrite !select_where_type.
Qed.

Lemma get_api_stats_error (d : db) :
  stock_overflows (inventory d) → get_api_stats d = ServerError "Server error".
Proof.
  intros Hover. unfold get_api_stats. by rewrite (SUM_int_overflow _ Hover).
Qed.




(** ** GROUP BY and the month maps *)

Section group_by.
Context {A K : Type} `{EqDecision K} (key : A → K).


End group_by.








Lemma count_char_app (c : ascii) (a b : string) :
  count_char c (a +:+ b) = (count_char c a + count_char c b)%nat.
Proof. induction a as [|d a IH]; simpl; [done|]. rewrite IH. lia. Qed.

Lemma count_char_cons (c d : ascii) (s : string) :
  count_char c (String d s)
  = ((if decide (d = c) then 1 else 0) + count_char c s)%nat.
Proof. reflexivity. Qed.

(** The part of a text before its first NUL: the longest prefix that holds
    no NUL. *)
Lemma c_string_prefix (s : string) :
  ∃ rest, s = SQL.c_string s +:+ rest
          ∧ count_char SQL.NUL (SQL.c_string s) = 0%nat
          ∧ (rest = EmptyString ∨ ∃ r, rest = String SQL.NUL r).
Proof.
  induction s as [|c s (rest & Hs & Hnone & Hrest)]; [by exists EmptyString; auto|].
  simpl. destruct (decide (c = SQL.NUL)) as [->|Hc].
  - exists (String SQL.NUL s). split; [done|]. split; [done|]. right. by eexists.
  - exists rest.
    split; [change (String c s = String c (SQL.c_string s +:+ rest)); by rewrite <- Hs|].
    split; [|done]. rewrite count_char_cons, Hnone. by rewrite decide_False.
Qed.

Lemma c_string_id (s : string) :
  count_char SQL.NUL s = 0%nat → SQL.c_string s = s.
Proof.
  induction s as [|c s IH]; [done|]. rewrite count_char_cons. simpl.
  destruct (decide (c = SQL.NUL)); [done|]. intros Hs. by rewrite IH.
Qed.





(** ** GET /api/revenue-series *)

Lemma get_api_revenue_series_Ok (h : Date.host) (mp : option string) (d : db)
    (s : Series.t) :
  get_api_revenue_series h mp d = Ok s →
  month_keys h (Z.to_nat (default 0 (JS.parseInt (JS.or_string mp "6"))))
    = Some (Series.months s)
  ∧ Series.labels s = label_of <$> Series.months s
  ∧ Series.revenue s =
      rounded_or_zero (to_map (monthly_rows "invoice" (lower_bound (Series.months s)) d))
        <$> Series.months s
  ∧ Series.expenses s =
      rounded_or_zero (to_map (monthly_rows "expense" (lower_bound (Series.months s)) d))
        <$> Series.months s.
Proof.
  unfold get_api_revenue_series.
  destruct (month_keys h _) as [months|]; simpl; [|done].
  by intros [= <-].
Qed.








Lemma parseInt_truthy (p : string) (n : Z) :
  JS.parseInt p = Some n → JS.or_string (Some p) "6" = p.
Proof. by destruct p. Qed.

Lemma below_undefined (s : string) :
  starts_with_digit s → ¬ ("undefined-01" ≤ s)%string.
Proof.
  destruct s as [|c s]; [done|].
  destruct c as [[] [] [] [] [] [] [] []]; simpl; intros [? [=]]; by vm_compute.
Qed.

(** C9 (amended).  For every value of the [months] parameter that parses to
    an integer <= 0, GET /api/revenue-series succeeds with all four arrays
    empty, whatever the database holds, because the loop produces no month.
    The bound of the two queries is then the text "undefined-01"; it matches
    no transaction whose date starts with a digit. *)
Theorem revenue_series_no_months (h : Date.host) (d : db) (p : string) (n : Z) :
  JS.parseInt p = Some n → n ≤ 0 →
  get_api_revenue_series h (Some p) d = Ok empty_series
  ∧ success (get_api_revenue_series h (Some p) d) = true
  ∧ lower_bound (Series.months empty_series) = "undefined-01"
  ∧ ((∀ t, t ∈ transactions d → starts_with_digit (tx_date t)) →
     ∀ ty, monthly_rows ty "undefined-01" d = []).
Proof.
  intros Hp Hn.
  assert (get_api_revenue_series h (Some p) d = Ok empty_series) as Hrun.
  { unfold get_api_revenue_series. rewrite (parseInt_truthy p n Hp), Hp. simpl.
    by replace (Z.to_nat n) with 0%nat by lia. }
  split; [done|]. split; [by rewrite Hrun|]. split; [done|].
  intros Hdates ty. unfold monthly_rows.
  replace (select_where _ d) with (@nil transaction); [done|].
  symmetry. apply elem_of_nil_inv. intros t [Ht Hin]%list_elem_of_filter.
  simpl in Ht. apply andb_True in Ht as [_ Hge].
  by apply (below_undefined (tx_date t)); [apply Hdates|].
Qed.

Lemma revenue_series_no_months_witness :
  get_api_revenue_series host_utc (Some "-3") db_ledger = Ok empty_series
  ∧ monthly_rows "invoice" "undefined-01" db_ledger = [].
Proof.
  destruct (revenue_series_no_months host_utc db_ledger "-3" (-3)) as (Hrun & _ & _ & Hrows).
  - reflexivity.
  - lia.
  - split; [exact Hrun|]. apply Hrows. apply Forall_forall.
    repeat constructor; vm_compute; eauto.
Defined.

(** C9, refuted as stated: with [months=0] the answer is the empty series,
    but the bound "undefined-01" does match a stored transaction, the
    invoice dated "week 45". *)
Lemma revenue_series_no_months_filter_matches :
  ¬ (get_api_revenue_series host_utc (Some "0") db_free_text_date = Ok empty_series
     ∧ select_where (And (Eq_ Type_ "invoice") (Ge Date_ (lower_bound [])))
         db_free_text_date = []).
Proof. intros [_ Hnone]. vm_compute in Hnone. discriminate Hnone. Qed.

(** *** The month keys on a host at or behind UTC *)

Lemma era_roundtrip_all :
  forallb (λ yoe, forallb (λ m, era_roundtrip (Z.of_nat yoe) (Z.of_nat m)) (seq 1 12))
    (seq 0 400) = true.
Proof. vm_compute. reflexivity. Qed.

Lemma era_roundtrip_ok (yoe m : Z) :
  0 ≤ yoe < 400 → 1 ≤ m ≤ 12 → era_roundtrip yoe m = true.
Proof.
  intros Hy Hm. pose proof era_roundtrip_all as Hall.
  rewrite forallb_forall in Hall.
  specialize (Hall (Z.to_nat yoe)). rewrite forallb_forall in Hall.
  specialize (Hall ltac:(apply in_seq; lia) (Z.to_nat m) ltac:(apply in_seq; lia)).
  by rewrite !Z2Nat.id in Hall by lia.
Qed.

(** The first of a month survives the trip through the day number. *)
Lemma civil_from_days_first (y m : Z) :
  1 ≤ m ≤ 12 → Date.civil_from_days (Date.days_from_civil y m 1) = (y, m, 1).
Proof.
  intros Hm. unfold Date.days_from_civil, Date.civil_from_days.
  set (y' := if m <=? 2 then y - 1 else y).
  set (era := y' / 400). set (yoe := y' - era * 400).
  assert (0 ≤ yoe < 400) as Hyoe.
  { unfold yoe, era. pose proof (Z.mod_pos_bound y' 400 ltac:(lia)).
    rewrite Z.mod_eq in * by lia. lia. }
  pose proof (era_roundtrip_ok yoe m Hyoe Hm) as Hok.
  unfold era_roundtrip in Hok. fold (doe_of yoe m).
  set (doe := doe_of yoe m) in *.
  apply andb_true_iff in Hok as [Hok Hd%Z.eqb_eq].
  apply andb_true_iff in Hok as [Hok Hm'%Z.eqb_eq].
  apply andb_true_iff in Hok as [Hok Hyoe'%Z.eqb_eq].
  apply andb_true_iff in Hok as [Hlo%Z.leb_le Hhi%Z.ltb_lt].
  replace (era * 146097 + doe - 719468 + 719468) with (doe + era * 146097) by lia.
  rewrite Z.div_add, (Z.div_small doe) by lia.
  replace (doe + era * 146097 - (0 + era) * 146097) with doe by lia.
  cbv zeta. rewrite Hd, Hm', Hyoe'. f_equal. f_equal.
  unfold yoe, y'. destruct (Z.leb_spec m 2); lia.
Qed.

(** At or behind UTC, local midnight on the first of a month is a time of
    that same day in UTC. *)
Lemma first_of_month_key (h : Date.host) (year mi : Z) (t : Z) :
  (∀ y m, -1440 < Date.tz_offset h y m ≤ 0) → ¬ (0 ≤ year ≤ 99) →
  Date.first_of_month h year mi = Some t →
  JS.slice0 7 (Date.toISOString t) = month_key (year + mi / 12) (mi mod 12 + 1).
Proof.
  intros Htz Hyear. unfold Date.first_of_month.
  replace ((0 <=? year) && (year <=? 99)) with false
    by (symmetry; apply andb_false_iff; lia).
  set (ym := year + mi / 12). set (mn := mi mod 12).
  destruct (Z.abs _ <=? _); [|done]. intros [= <-].
  unfold Date.toISOString, month_key.
  assert (0 ≤ mn < 12) as Hmn by (apply Z.mod_pos_bound; lia).
  specialize (Htz ym mn).
  replace ((Date.days_from_civil ym (mn + 1) 1 * 1440 - Date.tz_offset h ym mn) / 1440)
    with (Date.days_from_civil ym (mn + 1) 1).
  - by rewrite civil_from_days_first by lia.
  - apply Z.div_unique with (r := - Date.tz_offset h ym mn); lia.
Qed.

(** Where the claim C2 does hold: on a host at or behind UTC (and a year
    past 99), a successful loop yields the keys of the [n] consecutive
    calendar months that end at the current local month, oldest first. *)
Lemma month_keys_behind_utc (h : Date.host) (n : nat) (ks : list string) :
  (∀ y m, -1440 < Date.tz_offset h y m ≤ 0) →
  ¬ (0 ≤ Date.getFullYear h ≤ 99) →
  month_keys h n = Some ks →
  ks = months_ending_now (Date.getFullYear h) (Date.getMonth h) n
  ∧ length ks = n.
Proof.
  intros Htz Hyear. unfold months_ending_now.
  revert ks. induction n as [|n IH]; intros ks.
  - by intros [= <-].
  - rewrite seq_S, reverse_app. simpl.
    destruct (Date.first_of_month h _ _) as [t|] eqn:Ht; simpl; [|done].
    destruct (month_keys h n) as [rest|]; simpl; [|done].
    intros [= <-]. destruct (IH rest eq_refl) as [Hrest Hlen].
    rewrite (first_of_month_key h _ _ t Htz Hyear Ht).
    split; [by f_equal | simpl; by rewrite Hlen].
Qed.

(** *** The month keys on a host east of UTC *)

Lemma days_from_civil_shift (y m d k : Z) :
  Date.days_from_civil (y + 400 * k) m d = Date.days_from_civil y m d + 146097 * k.
Proof.
  unfold Date.days_from_civil. cbv zeta.
  replace (if m <=? 2 then y + 400 * k - 1 else y + 400 * k)
    with ((if m <=? 2 then y - 1 else y) + k * 400) by (destruct (m <=? 2); lia).
  set (y' := if m <=? 2 then y - 1 else y).
  rewrite Z.div_add by lia.
  replace (y' + k * 400 - (y' / 400 + k) * 400) with (y' - y' / 400 * 400) by lia.
  lia.
Qed.

Lemma civil_from_days_shift (z k : Z) :
  Date.civil_from_days (z + 146097 * k)
  = let '(y, m, d) := Date.civil_from_days z in (y + 400 * k, m, d).
Proof.
  unfold Date.civil_from_days.
  replace (z + 146097 * k + 719468) with (z + 719468 + k * 146097) by lia.
  rewrite Z.div_add by lia.
  replace (z + 719468 + k * 146097 - ((z + 719468) / 146097 + k) * 146097)
    with (z + 719468 - (z + 719468) / 146097 * 146097) by lia.
  cbv zeta.
  match goal with |- context [if ?c then _ else _] => destruct c end; f_equal; f_equal; lia.
Qed.

Lemma eve_in_previous_month_era :
  forallb (λ y, forallb (λ m, eve_in_previous_month (Z.of_nat y) (Z.of_nat m)) (seq 1 12))
    (seq 0 400) = true.
Proof. vm_compute. reflexivity. Qed.

Lemma eve_in_previous_month_ok (y m : Z) :
  1 ≤ m ≤ 12 → eve_in_previous_month y m = true.
Proof.
  intros Hm.
  assert (∃ y0 k, 0 ≤ y0 < 400 ∧ y = y0 + 400 * k) as (y0 & k & Hy0 & ->).
  { exists (y mod 400), (y / 400). split; [apply Z.mod_pos_bound; lia|].
    rewrite Z.mod_eq; lia. }
  pose proof eve_in_previous_month_era as Hall.
  rewrite forallb_forall in Hall.
  specialize (Hall (Z.to_nat y0)). rewrite forallb_forall in Hall.
  specialize (Hall ltac:(apply in_seq; lia) (Z.to_nat m) ltac:(apply in_seq; lia)).
  rewrite !Z2Nat.id in Hall by lia. revert Hall.
  unfold eve_in_previous_month.
  rewrite days_from_civil_shift.
  replace (Date.days_from_civil y0 m 1 + 146097 * k - 1)
    with (Date.days_from_civil y0 m 1 - 1 + 146097 * k) by lia.
  rewrite civil_from_days_shift.
  destruct (Date.civil_from_days _) as [[y' m'] d'].
  rewrite !bool_decide_eq_true. unfold previous_month.
  destruct (m =? 1); intros [= -> ->]; f_equal; lia.
Qed.

Lemma string_length_app (a b : string) :
  String.length (a +:+ b) = (String.length a + String.length b)%nat.
Proof. induction a as [|c a IH]; simpl; [done | by rewrite IH]. Qed.

Lemma substring_app_l (n : nat) (a b : string) :
  (n ≤ String.length a)%nat → String.substring 0 n (a +:+ b) = String.substring 0 n a.
Proof.
  revert a. induction n as [|n IH]; intros [|c a] Hn; simpl in *; try lia.
  - by destruct b.
  - done.
  - rewrite IH by lia. done.
Qed.

Lemma pad_left_length (n : nat) (s : string) :
  (n ≤ String.length (Date.pad_left n s))%nat.
Proof.
  unfold Date.pad_left. rewrite string_length_app.
  assert (∀ l, String.length (String.string_of_list_ascii l) = length l) as ->.
  { induction l as [|c l IH]; simpl; [done | by rewrite IH]. }
  rewrite length_replicate. lia.
Qed.

Lemma string_app_assoc (a b c : string) : (a +:+ b) +:+ c = a +:+ b +:+ c.
Proof.
  induction a as [|x a IH]; [done|].
  change (String x ((a +:+ b) +:+ c) = String x (a +:+ b +:+ c)). by rewrite IH.
Qed.

Lemma iso_year_length (y : Z) : (4 ≤ String.length (Date.iso_year y))%nat.
Proof.
  unfold Date.iso_year. destruct (_ && _); [apply pad_left_length|].
  rewrite string_length_app. pose proof (pad_left_length 6 (Date.decimal (Z.abs y))).
  lia.
Qed.

Lemma month_key_of_day (y m d : Z) :
  JS.slice0 7 (Date.iso_date y m d) = month_key y m.
Proof.
  assert (∀ d', JS.slice0 7 (Date.iso_date y m d')
                = JS.slice0 7 (Date.iso_year y +:+ "-" +:+ Date.pad_left 2 (Date.decimal m)))
    as Hday; [|unfold month_key; by rewrite !Hday].
  intros d'. unfold Date.iso_date, JS.slice0.
  replace (Date.iso_year y +:+ "-" +:+ Date.pad_left 2 (Date.decimal m) +:+ "-" +:+
           Date.pad_left 2 (Date.decimal d'))
    with ((Date.iso_year y +:+ "-" +:+ Date.pad_left 2 (Date.decimal m)) +:+ "-" +:+
          Date.pad_left 2 (Date.decimal d'))
    by (by rewrite !string_app_assoc).
  apply substring_app_l. rewrite !string_length_app.
  pose proof (iso_year_length y). pose proof (pad_left_length 2 (Date.decimal m)).
  simpl. lia.
Qed.

(** East of UTC, local midnight on the first of a month is a time of the
    previous day in UTC, which lies in the previous month. *)
Lemma first_of_month_key_east (h : Date.host) (year mi : Z) (t : Z) :
  (∀ y m, 0 < Date.tz_offset h y m < 1440) → ¬ (0 ≤ year ≤ 99) →
  Date.first_of_month h year mi = Some t →
  JS.slice0 7 (Date.toISOString t)
  = let '(y, m) := previous_month (year + mi / 12) (mi mod 12 + 1) in month_key y m.
Proof.
  intros Htz Hyear. unfold Date.first_of_month.
  replace ((0 <=? year) && (year <=? 99)) with false
    by (symmetry; apply andb_false_iff; lia).
  set (ym := year + mi / 12). set (mn := mi mod 12).
  destruct (Z.abs _ <=? _); [|done]. intros [= <-].
  unfold Date.toISOString.
  assert (0 ≤ mn < 12) as Hmn by (apply Z.mod_pos_bound; lia).
  specialize (Htz ym mn).
  replace ((Date.days_from_civil ym (mn + 1) 1 * 1440 - Date.tz_offset h ym mn) / 1440)
    with (Date.days_from_civil ym (mn + 1) 1 - 1)
    by (apply Z.div_unique with (r := 1440 - Date.tz_offset h ym mn); lia).
  pose proof (eve_in_previous_month_ok ym (mn + 1) ltac:(lia)) as Heve.
  unfold eve_in_previous_month in Heve.
  destruct (Date.civil_from_days _) as [[y' m'] d'].
  apply bool_decide_eq_true in Heve as <-.
  apply month_key_of_day.
Qed.

(** Where the claim C2 fails: on every host east of UTC (and a year past
    99) a successful loop yields the months that end one month before the
    current local month. *)
Lemma month_keys_east_of_utc (h : Date.host) (n : nat) (ks : list string) :
  (∀ y m, 0 < Date.tz_offset h y m < 1440) →
  ¬ (0 ≤ Date.getFullYear h ≤ 99) →
  month_keys h n = Some ks →
  ks = months_ending_before (Date.getFullYear h) (Date.getMonth h) n.
Proof.
  intros Htz Hyear. unfold months_ending_before.
  revert ks. induction n as [|n IH]; intros ks.
  - by intros [= <-].
  - rewrite seq_S, reverse_app. simpl.
    destruct (Date.first_of_month h _ _) as [t|] eqn:Ht; simpl; [|done].
    destruct (month_keys h n) as [rest|]; simpl; [|done].
    intros [= <-]. rewrite (IH rest eq_refl) at 1.
    by rewrite (first_of_month_key_east h _ _ t Htz Hyear Ht).
Qed.

(** The months of a successful answer, by the side of UTC the host is on;
    the other three arrays are mapped from them. *)
Lemma revenue_series_months (h : Date.host) (mp : option string) (d : db)
    (s : Series.t) :
  ¬ (0 ≤ Date.getFullYear h ≤ 99) →
  get_api_revenue_series h mp d = Ok s →
  let n := Z.to_nat (default 0 (JS.parseInt (JS.or_string mp "6"))) in
  length (Series.labels s) = length (Series.months s)
  ∧ length (Series.revenue s) = length (Series.months s)
  ∧ length (Series.expenses s) = length (Series.months s)
  ∧ ((∀ y m, -1440 < Date.tz_offset h y m ≤ 0) →
     Series.months s = months_ending_now (Date.getFullYear h) (Date.getMonth h) n
     ∧ length (Series.months s) = n)
  ∧ ((∀ y m, 0 < Date.tz_offset h y m < 1440) →
     Series.months s = months_ending_before (Date.getFullYear h) (Date.getMonth h) n).
Proof.
  intros Hyear (Hkeys & -> & -> & ->)%get_api_revenue_series_Ok n.
  rewrite !length_fmap. repeat split; try done.
  - by eapply month_keys_behind_utc.
  - by eapply month_keys_behind_utc.
  - intros Htz. by eapply month_keys_east_of_utc.
Qed.

(** C2 (defect of the code).  On a host two hours east of UTC, at local
    2 November 2026, the series for [months=3] has four arrays of length 3
    but ends at October, although the three months that end at the current
    one are September to November: local midnight on the first of a month is
    still the previous month in UTC, which [toISOString] prints. *)
Theorem revenue_series_east_of_utc :
  get_api_revenue_series host_east (Some "3") db_ledger =
    Ok {| Series.labels := ["Aug"; "Sep"; "Oct"];
          Series.months := ["2026-08"; "2026-09"; "2026-10"];
          Series.revenue := [JS.Whole 0; JS.Whole 0; JS.Whole 100];
          Series.expenses := [JS.Whole 0; JS.Whole 0; JS.Whole 0] |}
  ∧ months_ending_now (Date.getFullYear host_east) (Date.getMonth host_east) 3
    = ["2026-09"; "2026-10"; "2026-11"].
Proof. split; vm_compute; reflexivity. Qed.

(** ** LIKE *)

Lemma fold_case_all :
  forallb (λ c, forallb (λ d,
     Bool.eqb (bool_decide (SQL.fold_case c = SQL.fold_case d)) (same_letter c d))
     all_ascii) all_ascii = true.
Proof. by vm_compute. Qed.

Lemma elem_of_all_ascii (c : ascii) : c ∈ all_ascii.
Proof.
  unfold all_ascii. rewrite <- (ascii_nat_embedding c).
  apply list_elem_of_fmap_2, elem_of_seq.
  pose proof (nat_ascii_bounded c). lia.
Qed.

(** Folding the case of ASCII letters identifies a letter with itself in
    the other case, and nothing else. *)
Lemma fold_case_same (c d : ascii) :
  bool_decide (SQL.fold_case c = SQL.fold_case d) = same_letter c d.
Proof.
  pose proof fold_case_all as Hall.
  rewrite forallb_forall in Hall.
  specialize (Hall c ltac:(apply list_elem_of_In, elem_of_all_ascii)).
  rewrite forallb_forall in Hall.
  specialize (Hall d ltac:(apply list_elem_of_In, elem_of_all_ascii)).
  by apply Bool.eqb_prop in Hall.
Qed.

Lemma like_percent (p s : string) :
  SQL.like_chars (String "%" p) s =
  SQL.like_chars p s ||
  match s with String _ s' => SQL.like_chars (String "%" p) s' | EmptyString => false end.
Proof. by destruct s. Qed.

Lemma like_plain (c : ascii) (p s : string) :
  is_wildcard c = false →
  SQL.like_chars (String c p) s =
  match s with
  | String d s' => same_letter c d && SQL.like_chars p s'
  | EmptyString => false
  end.
Proof.
  intros Hc. destruct s as [|d s']; [by destruct c as [[] [] [] [] [] [] [] []]|].
  rewrite <- fold_case_same. by destruct c as [[] [] [] [] [] [] [] []].
Qed.

Lemma like_percent_any (s : string) : SQL.like_chars "%" s = true.
Proof.
  induction s as [|c s IH]; [done|].
  rewrite like_percent, IH. apply orb_true_r.
Qed.

Lemma like_prefix (q s : string) :
  no_wildcard q →
  SQL.like_chars (q +:+ "%") s = prefix_by same_letter q s.
Proof.
  revert s. induction q as [|c q IH]; intros s Hq.
  - apply like_percent_any.
  - simpl in Hq. apply andb_True in Hq as [Hc Hq].
    change (String c q +:+ "%") with (String c (q +:+ "%")).
    rewrite like_plain by by apply negb_True, Is_true_false in Hc.
    destruct s as [|d s]; [done|]. simpl. by rewrite IH.
Qed.

Lemma like_chars_contains (q s : string) :
  no_wildcard q →
  SQL.like_chars ("%" +:+ q +:+ "%") s = contains_nocase q s.
Proof.
  intros Hq. change ("%" +:+ q +:+ "%") with (String "%" (q +:+ "%")).
  induction s as [|d s IH].
  - rewrite like_percent, like_prefix by done. done.
  - rewrite like_percent, like_prefix, IH by done. done.
Qed.


(** With no wildcard and no NUL in [q], the pattern [`%${q}%`] selects the
    texts that contain [q] up to ASCII case before their first NUL. *)
Lemma like_contains (q s : string) :
  no_wildcard q → count_char SQL.NUL q = 0%nat →
  SQL.like ("%" +:+ q +:+ "%") s = contains_nocase q (SQL.c_string s).
Proof.
  intros Hq Hnul. unfold SQL.like. rewrite (c_string_id ("%" +:+ q +:+ "%")).
  - by apply like_chars_contains.
  - change ("%" +:+ q +:+ "%") with (String "%" (q +:+ "%")).
    rewrite count_char_cons, count_char_app, Hnul. done.
Qed.

Lemma like_percent_only (s : string) : SQL.like "%" s = true.
Proof. apply like_percent_any. Qed.

(** The matcher decides the matching relation of LIKE. *)
Lemma like_chars_matches (pat s : string) :
  SQL.like_chars pat s = true ↔ like_matches pat s.
Proof.
  split.
  - revert s. induction pat as [|a p IH]; intros s.
    { destruct s; [constructor | done]. }
    destruct (decide (a = "%"%char)) as [->|Hpercent].
    { induction s as [|c s IHs]; rewrite like_percent.
      - rewrite orb_false_r. intros Hp. apply like_any_none. by apply IH.
      - intros [Hp|Hs]%orb_true_iff.
        + apply like_any_none. by apply IH.
        + apply like_any_more. by apply IHs. }
    destruct (decide (a = "_"%char)) as [->|Hone].
    { destruct s as [|c s]; [done|]. simpl. intros Hp. apply like_one. by apply IH. }
    rewrite like_plain.
    + destruct s as [|c s]; [done|]. intros [Hc Hp]%andb_true_iff.
      apply like_char; auto.
    + unfold is_wildcard. by rewrite !bool_decide_eq_false_2.
  - induction 1 as [|p s _ IH|p c s _ IH|p c s _ IH|a p c s Hpercent Hone Hc _ IH].
    + done.
    + rewrite like_percent, IH. done.
    + rewrite like_percent, IH. apply orb_true_r.
    + done.
    + rewrite like_plain.
      * by rewrite Hc, IH.
      * unfold is_wildcard. by rewrite !bool_decide_eq_false_2.
Qed.

Lemma like_matches_spec (pat s : string) :
  SQL.like pat s = true ↔ like_matches (SQL.c_string pat) (SQL.c_string s).
Proof. apply like_chars_matches. Qed.
(** ** ORDER BY and LIMIT *)

#[global] Instance date_id_desc_total : Total date_id_desc.
Proof.
  intros a b. unfold date_id_desc.
  destruct (decide (tx_date a = tx_date b)) as [Heq|Hne].
  - destruct (Z.le_ge_cases (tx_id a) (tx_id b)); [right | left]; right; auto.
  - destruct (base.total String.le (tx_date a) (tx_date b)); [right | left]; left; auto.
Qed.

#[global] Instance date_id_desc_trans : Transitive date_id_desc.
Proof.
  intros a b c. unfold date_id_desc.
  intros [[Hab Hle1]|[Hab Hid1]] [[Hbc Hle2]|[Hbc Hid2]].
  - left. split; [|by etrans].
    intros Hac. rewrite Hac in Hle1. apply Hbc.
    by apply (anti_symm String.le).
  - left. rewrite <- Hbc. auto.
  - left. rewrite Hab. auto.
  - right. split; [congruence | lia].
Qed.

#[global] Instance date_desc_total : Total date_desc.
Proof. intros a b. unfold date_desc. apply (base.total String.le). Qed.

#[global] Instance date_desc_trans : Transitive date_desc.
Proof. intros a b c. unfold date_desc. intros ??. by etrans. Qed.

#[global] Instance real_le_total : Total SQL.real_le.
Proof.
  intros x y. unfold SQL.real_le.
  destruct (Z.lt_trichotomy (SQL.real_key x).1 (SQL.real_key y).1) as [?|[Heq|?]];
    [by left; left | | by right; left].
  destruct (base.total Qcle (SQL.real_key x).2 (SQL.real_key y).2);
    [left | right]; right; auto.
Qed.

#[global] Instance real_le_trans : Transitive SQL.real_le.
Proof.
  intros x y z. unfold SQL.real_le.
  intros [Hxy|[Hxy Hq]] [Hyz|[Hyz Hq']]; [left; lia..|].
  right. split; [lia | by etrans].
Qed.

#[global] Instance total_desc_total : Total total_desc.
Proof. intros a b. unfold total_desc. apply (base.total SQL.real_le). Qed.

#[global] Instance total_desc_trans : Transitive total_desc.
Proof. intros a b c. unfold total_desc. intros ??. by etrans. Qed.

Section order_by.
Context {A : Type} (R : relation A) `{∀ x y, Decision (R x y)}.
Context `{!Total R, !Transitive R}.

Lemma order_by_sorted (rows : list A) : StronglySorted R (SQL.order_by R rows).
Proof. apply StronglySorted_merge_sort; apply _. Qed.

Lemma order_by_perm (rows : list A) : SQL.order_by R rows ≡ₚ rows.
Proof. apply merge_sort_Permutation. Qed.

Lemma elem_of_order_by (rows : list A) (x : A) :
  x ∈ SQL.order_by R rows ↔ x ∈ rows.
Proof. by rewrite order_by_perm. Qed.
End order_by.

Lemma sorted_lookup {A} (R : relation A) (l : list A) (i j : nat) (a b : A) :
  StronglySorted R l → l !! i = Some a → l !! j = Some b → (i < j)%nat → R a b.
Proof.
  intros Hs. revert i j.
  induction Hs as [|x l Hs IH Hall]; intros i j; [done|].
  destruct i as [|i], j as [|j]; simpl; try lia.
  - intros [= <-] Hb%list_elem_of_lookup_2 _.
    by apply (proj1 (Forall_forall _ _) Hall).
  - intros Ha Hb Hij. apply (IH i j); [done..|lia].
Qed.

Lemma limit_offset_sublist {A} (limit offset : Z) (rows : list A) :
  SQL.limit_offset limit offset rows `sublist_of` rows.
Proof.
  unfold SQL.limit_offset. destruct (limit <? 0).
  - apply sublist_drop.
  - etrans; [apply sublist_take | apply sublist_drop].
Qed.

Lemma limit_offset_nonneg {A} (limit offset : Z) (rows : list A) :
  0 ≤ limit →
  SQL.limit_offset limit offset rows
  = take (Z.to_nat limit) (drop (Z.to_nat offset) rows).
Proof.
  intros Hl. unfold SQL.limit_offset.
  by destruct (Z.ltb_spec limit 0); [lia|].
Qed.

Lemma limit_offset_negative {A} (limit offset : Z) (rows : list A) :
  limit < 0 → SQL.limit_offset limit offset rows = drop (Z.to_nat offset) rows.
Proof.
  intros Hl. unfold SQL.limit_offset.
  by destruct (Z.ltb_spec limit 0); [|lia].
Qed.

(** ** GET /api/transactions *)

Lemma holds_list_where (q ty : string) (t : transaction) :
  holds (list_where q ty) t ↔
  listed (λ q s, SQL.like ("%" +:+ q +:+ "%") s) q ty t.
Proof.
  unfold list_where, listed.
  destruct ty as [|c ty], q as [|c' q]; simpl;
    rewrite ?andb_True, ?orb_True, ?bool_decide_spec; intuition congruence.
Qed.

Lemma listed_like_contains (q ty : string) (t : transaction) :
  no_wildcard q → count_char SQL.NUL q = 0%nat →
  listed (λ q s, SQL.like ("%" +:+ q +:+ "%") s) q ty t ↔
  listed (λ q s, contains_nocase q (SQL.c_string s)) q ty t.
Proof. intros Hq Hnul. unfold listed. by rewrite !like_contains. Qed.

(** The number a LIMIT or OFFSET takes. *)
Lemma must_be_int_Some (v : Z) :
  - 2 ^ 63 < JS.to_double v < 2 ^ 63 → SQL.must_be_int v = Some (JS.to_double v).
Proof.
  intros [Hlo Hhi]. unfold SQL.must_be_int.
  apply Z.ltb_lt in Hlo, Hhi. by rewrite Hlo, Hhi.
Qed.

Lemma must_be_int_None (v : Z) :
  ¬ (- 2 ^ 63 < JS.to_double v < 2 ^ 63) → SQL.must_be_int v = None.
Proof.
  intros Hout. unfold SQL.must_be_int.
  destruct (Z.ltb_spec (- 2 ^ 63) (JS.to_double v));
    destruct (Z.ltb_spec (JS.to_double v) (2 ^ 63)); simpl; [lia|done..].
Qed.

Lemma must_be_int_small (v : Z) : Z.abs v ≤ 2 ^ 53 → SQL.must_be_int v = Some v.
Proof.
  intros Hv. rewrite must_be_int_Some; rewrite to_double_small by done; [done|lia].
Qed.

Lemma parsed_read_text (x : query_value) (d : string) :
  parsed x d = JS.parseInt (read_text x d).
Proof. by destruct x as [|[|c s]|shown]. Qed.

Lemma get_api_transactions_eq (q type_ : option string) (limit offset : query_value)
    (d : db) (l o : Z) :
  parsed limit "100" = Some l →
  parsed offset "0" = Some o →
  - 2 ^ 63 < JS.to_double l < 2 ^ 63 →
  - 2 ^ 63 < JS.to_double o < 2 ^ 63 →
  get_api_transactions (given q) (given type_) limit offset d
  = Ok (SQL.limit_offset (JS.to_double l) (JS.to_double o) (listing q type_ d)).
Proof.
  intros Hl Ho Hlr Hor. unfold get_api_transactions.
  rewrite Hl, Ho. destruct q, type_; simpl;
    by rewrite (must_be_int_Some l), (must_be_int_Some o).
Qed.

Lemma get_api_transactions_out_of_range (q type_ limit offset : query_value)
    (d : db) (l o : Z) :
  parsed limit "100" = Some l →
  parsed offset "0" = Some o →
  ¬ (- 2 ^ 63 < JS.to_double l < 2 ^ 63) ∨ ¬ (- 2 ^ 63 < JS.to_double o < 2 ^ 63) →
  get_api_transactions q type_ limit offset d = ServerError "Server error".
Proof.
  intros Hl Ho Hout. unfold get_api_transactions. rewrite Hl, Ho.
  destruct (trimmed q); [|done]. destruct (trimmed type_); [|done]. simpl.
  destruct Hout as [Hout|Hout].
  - by rewrite (must_be_int_None l).
  - rewrite (must_be_int_None o) by done. by destruct (SQL.must_be_int l).
Qed.

(** C5 (amended).  Let [q] and [type] be absent or one text each, and let
    [limit] and [offset] (defaults 100 and 0) parse to the integers [l] and
    [o].  When the double nearest to [l] or to [o] is of magnitude 2^63 or
    more, as it is from 2^63 - 512 on, GET /api/transactions answers 500.
    Otherwise it answers with the transactions of which reference, account
    or date matches the LIKE pattern [%q%] for the trimmed [q] and, when a
    type is given, whose type equals the trimmed type exactly, ordered by
    date descending and then id descending; of these it skips [offset] rows
    (none when negative) and keeps the next [limit] rows (all of them when
    [limit] is negative).  LIKE reads pattern and text up to their first
    NUL; in a pattern [%] stands for any run of characters, [_] for any one
    character and every other character for itself up to the case of ASCII
    letters.  So for a trimmed [q] without [%], [_] and NUL the rows are
    those of which reference, account or date contains [q], up to the case
    of ASCII letters, before its first NUL. *)
Theorem list_transactions_rows (q type_ : option string) (limit offset : query_value)
    (d : db) (l o : Z) :
  JS.parseInt (read_text limit "100") = Some l →
  JS.parseInt (read_text offset "0") = Some o →
  (¬ (- 2 ^ 63 < JS.to_double l < 2 ^ 63) ∨ ¬ (- 2 ^ 63 < JS.to_double o < 2 ^ 63) →
   get_api_transactions (given q) (given type_) limit offset d
   = ServerError "Server error")
  ∧ (- 2 ^ 63 < JS.to_double l < 2 ^ 63 → - 2 ^ 63 < JS.to_double o < 2 ^ 63 →
     ∃ sorted : list transaction,
       get_api_transactions (given q) (given type_) limit offset d
       = Ok (SQL.limit_offset (JS.to_double l) (JS.to_double o) sorted)
       ∧ sorted ≡ₚ filter (listed (λ q s, SQL.like ("%" +:+ q +:+ "%") s)
                             (JS.trim (JS.or_string q EmptyString))
                             (JS.trim (JS.or_string type_ EmptyString)))
                     (transactions d)
       ∧ (no_wildcard (JS.trim (JS.or_string q EmptyString)) →
          count_char SQL.NUL (JS.trim (JS.or_string q EmptyString)) = 0%nat →
          sorted ≡ₚ filter (listed (λ q s, contains_nocase q (SQL.c_string s))
                              (JS.trim (JS.or_string q EmptyString))
                              (JS.trim (JS.or_string type_ EmptyString)))
                      (transactions d))
       ∧ StronglySorted date_id_desc sorted
       ∧ (0 ≤ JS.to_double l →
          SQL.limit_offset (JS.to_double l) (JS.to_double o) sorted
          = take (Z.to_nat (JS.to_double l)) (drop (Z.to_nat (JS.to_double o)) sorted))
       ∧ (JS.to_double l < 0 →
          SQL.limit_offset (JS.to_double l) (JS.to_double o) sorted
          = drop (Z.to_nat (JS.to_double o)) sorted))
  ∧ (Z.abs l ≤ 2 ^ 53 → JS.to_double l = l)
  ∧ (Z.abs o ≤ 2 ^ 53 → JS.to_double o = o)
  ∧ nearest_double l (JS.to_double l) ∧ nearest_double o (JS.to_double o)
  ∧ (- 2 ^ 63 < JS.to_double l < 2 ^ 63 ↔ Z.abs l < 2 ^ 63 - 512)
  ∧ (- 2 ^ 63 < JS.to_double o < 2 ^ 63 ↔ Z.abs o < 2 ^ 63 - 512)
  ∧ (∀ pat s, SQL.like pat s = true
              ↔ like_matches (SQL.c_string pat) (SQL.c_string s))
  ∧ (∀ s, ∃ rest, s = SQL.c_string s +:+ rest
                  ∧ count_char SQL.NUL (SQL.c_string s) = 0%nat
                  ∧ (rest = EmptyString ∨ ∃ r, rest = String SQL.NUL r))
  ∧ (limit = Absent ∨ limit = Text EmptyString → l = 100)
  ∧ (offset = Absent ∨ offset = Text EmptyString → o = 0).
Proof.
  intros Hl Ho.
  assert ((limit = Absent ∨ limit = Text EmptyString → l = 100)
          ∧ (offset = Absent ∨ offset = Text EmptyString → o = 0)) as Hdefaults.
  { split.
    - intros [-> | ->]; vm_compute in Hl; congruence.
    - intros [-> | ->]; vm_compute in Ho; congruence. }
  rewrite <- parsed_read_text in Hl, Ho.
  split; [by apply get_api_transactions_out_of_range|].
  split.
  { intros Hlr Hor. exists (listing q type_ d).
    split; [by apply get_api_transactions_eq|]. unfold listing.
    split.
    { rewrite order_by_perm by apply _. unfold select_where.
      erewrite list_filter_iff; [done|]. intros t. apply holds_list_where. }
    split.
    { intros Hq Hnul. rewrite order_by_perm by apply _. unfold select_where.
      erewrite list_filter_iff; [done|]. intros t.
      by rewrite holds_list_where, listed_like_contains. }
    split; [apply order_by_sorted; apply _|].
    split; [apply limit_offset_nonneg | apply limit_offset_negative]. }
  split; [apply to_double_small|]. split; [apply to_double_small|].
  split; [apply to_double_nearest|]. split; [apply to_double_nearest|].
  split; [apply to_double_in_range|]. split; [apply to_double_in_range|].
  split; [apply like_matches_spec|]. split; [apply c_string_prefix|]. done.
Qed.

Lemma list_transactions_rows_witness :
  ∃ sorted : list transaction,
    get_api_transactions (Text "inv") Absent Absent Absent db_ledger
      = Ok (SQL.limit_offset 100 0 sorted)
    ∧ sorted ≡ₚ filter (listed (λ q s, contains_nocase q (SQL.c_string s))
                          "inv" EmptyString)
                  (transactions db_ledger)
    ∧ StronglySorted date_id_desc sorted
    ∧ SQL.limit_offset 100 0 sorted = take 100 (drop 0 sorted).
Proof.
  destruct (list_transactions_rows (Some "inv") None Absent Absent db_ledger 100 0)
    as (_ & Hok & _); [reflexivity | reflexivity |].
  destruct Hok as (sorted & Hrun & _ & Hperm & Hsorted & Hlimit & _);
    [vm_compute; by split | vm_compute; by split |].
  exists sorted. split; [exact Hrun|]. split; [exact (Hperm I eq_refl)|].
  split; [exact Hsorted|]. apply Hlimit. vm_compute. discriminate.
Defined.

(** C5, refuted as stated: the search for "inv" also returns the invoice
    with reference "INV-1", none of whose reference, account and date
    contains "inv" as a case-sensitive substring. *)
Lemma list_transactions_ignores_case :
  get_api_transactions (Text "inv") Absent Absent Absent db_ledger =
    Ok [ sample_tx 3 "2026-11-03" "inv-2" "invoice" "Sales" 60;
         sample_tx 1 "2026-10-05" "INV-1" "invoice" "Sales" 100 ]
  ∧ ¬ listed contains "inv" EmptyString
        (sample_tx 1 "2026-10-05" "INV-1" "invoice" "Sales" 100).
Proof.
  split; [vm_compute; reflexivity|].
  intros H. apply (bool_decide_pack _) in H. vm_compute in H. exact H.
Qed.

Lemma trimStart_white_space (s : string) :
  all_white_space s → JS.trimStart s = EmptyString.
Proof.
  induction s as [|c s IH]; [done|]. simpl.
  intros [Hc Hs]%andb_True. destruct (JS.is_white_space c); [auto | done].
Qed.

Lemma trim_white_space (s : string) : all_white_space s → JS.trim s = EmptyString.
Proof. intros Hs. unfold JS.trim. by rewrite trimStart_white_space. Qed.

Lemma elem_of_limit_offset {A} (limit offset : Z) (rows : list A) (x : A) :
  x ∈ SQL.limit_offset limit offset rows → x ∈ rows.
Proof. apply sublist_subseteq, limit_offset_sublist. Qed.

Lemma trimmed_given (x : option string) :
  trimmed (given x) = Some (JS.trim (JS.or_string x EmptyString)).
Proof. by destruct x. Qed.

(** C10.  GET /api/transactions trims [q] and [type] and adds a filter only
    for a non-empty trimmed value: a [q], resp. [type], that is empty or all
    white space gives the answer of the request without that parameter.  An
    answer that contains a transaction whose type is the empty text was
    computed without a type filter, so no request selects the transactions
    of empty type. *)
Theorem list_transactions_blank_filters (q type_ : option string)
    (limit offset : query_value) (d : db) :
  (JS.trim (JS.or_string q EmptyString) = EmptyString →
   get_api_transactions (given q) (given type_) limit offset d
   = get_api_transactions Absent (given type_) limit offset d)
  ∧ (JS.trim (JS.or_string type_ EmptyString) = EmptyString →
     get_api_transactions (given q) (given type_) limit offset d
     = get_api_transactions (given q) Absent limit offset d)
  ∧ (∀ s, all_white_space s → JS.trim (JS.or_string (Some s) EmptyString) = EmptyString)
  ∧ (∀ rows t,
       get_api_transactions (given q) (given type_) limit offset d = Ok rows →
       t ∈ rows → tx_type t = EmptyString →
       get_api_transactions (given q) (given type_) limit offset d
       = get_api_transactions (given q) Absent limit offset d).
Proof.
  assert (JS.trim (JS.or_string type_ EmptyString) = EmptyString →
          get_api_transactions (given q) (given type_) limit offset d
          = get_api_transactions (given q) Absent limit offset d) as Htype.
  { intros Hty. unfold get_api_transactions. rewrite !trimmed_given.
    by rewrite Hty. }
  split.
  { intros Hq. unfold get_api_transactions. rewrite !trimmed_given.
    by rewrite Hq. }
  split; [done|]. split.
  { intros s Hs. destruct s; [done|]. by apply trim_white_space. }
  intros rows t Hrun Ht Hempty.
  destruct (decide (JS.trim (JS.or_string type_ EmptyString) = EmptyString))
    as [|Hne]; [auto|].
  exfalso. revert Hrun. unfold get_api_transactions, try_catch.
  rewrite !trimmed_given. simpl.
  destruct (parsed limit "100") as [l|]; [|done].
  destruct (parsed offset "0") as [o|]; [|done]. simpl.
  destruct (SQL.must_be_int l) as [l'|]; [|done].
  destruct (SQL.must_be_int o) as [o'|]; [|done].
  simpl. intros [= <-].
  apply elem_of_limit_offset in Ht.
  apply elem_of_order_by in Ht; try apply _.
  apply list_elem_of_filter in Ht as [Ht _].
  apply holds_list_where in Ht as [[?|Hty] _]; congruence.
Qed.

Lemma list_transactions_blank_filters_witness :
  get_api_transactions (Text "  ") (Text " ") Absent Absent db_ledger
  = get_api_transactions Absent Absent Absent Absent db_ledger.
Proof.
  destruct (list_transactions_blank_filters (Some "  ") (Some " ") Absent Absent
              db_ledger) as (Hq & _).
  change (Text "  ") with (given (Some "  ")).
  change (Text " ") with (given (Some " ")).
  rewrite Hq by reflexivity.
  destruct (list_transactions_blank_filters None (Some " ") Absent Absent db_ledger)
    as (_ & Hty & _).
  apply Hty. reflexivity.
Defined.
(** ** POST, PUT and DELETE /api/transactions *)

Lemma not_spec (x : field string) : not_ x = true ↔ missing_or_empty x.
Proof.
  unfold missing_or_empty.
  destruct x as [| |[|c s]]; simpl; intuition congruence.
Qed.

Lemma missing_required_spec (b : body) :
  missing_required b = true ↔
  missing_or_empty (date b) ∨ missing_or_empty (reference b) ∨
  missing_or_empty (type b) ∨ missing_or_empty (account b).
Proof.
  unfold missing_required. rewrite !orb_true_iff, !not_spec. tauto.
Qed.

Lemma set_transactions_id (d : db) :
  set_transactions (transactions d) (transactions_seq d) d = d.
Proof. by destruct d. Qed.

Lemma tx_id_le_max (rows : list transaction) (t : transaction) :
  t ∈ rows → tx_id t ≤ foldr Z.max 0 (tx_id <$> rows).
Proof.
  induction rows as [|r rows IH]; [by intros ?%elem_of_nil|].
  rewrite fmap_cons.
  change (foldr Z.max 0 (tx_id r :: (tx_id <$> rows)))
    with (Z.max (tx_id r) (foldr Z.max 0 (tx_id <$> rows))).
  intros [->|Hin]%elem_of_cons; [lia|].
  specialize (IH Hin). lia.
Qed.

Lemma tx_id_lt_next (d : db) (t : transaction) :
  t ∈ transactions d → tx_id t < next_rowid d.
Proof. intros Ht%tx_id_le_max. unfold next_rowid. lia. Qed.

Lemma filter_id_absent (id : option Z) (rows : list transaction) :
  (∀ n, id = Some n → n ∉ tx_id <$> rows) →
  filter (λ t, holds (IdEq id) t) rows = [].
Proof.
  intros Habsent. apply elem_of_nil_inv.
  intros t [Ht Hin]%list_elem_of_filter. simpl in Ht.
  apply bool_decide_unpack in Ht.
  apply (Habsent (tx_id t) Ht). by apply list_elem_of_fmap_2.
Qed.

Lemma number_or_0_stored (x : field float) : stored_number x (number_or_0 x).
Proof.
  destruct x as [| |a]; [done..|]. unfold stored_number, number_or_0, SQL.real.
  unfold is_zero, is_NaN. destruct (Prim2SF a) eqn:Ha.
  - split; [done|]. split; [done|]. intros Hz. destruct Hz. by eexists.
  - split; [by intros [? ?]|]. split; [done|]. done.
  - split; [by intros [? ?]|]. split; [done|]. done.
  - split; [by intros [? ?]|]. split; [done|]. done.
Qed.

(** C7.  POST /api/transactions: when one of date, reference, type and
    account is missing or empty, the answer is HTTP 400 with success:false
    and the database is unchanged.  Otherwise one row is appended that
    carries the four submitted texts, the submitted debit and credit -- 0
    for an omitted one, NULL for [null], a number as it is, a zero as 0 --,
    the time of the host as created_at and a rowid larger than every rowid
    in the table; the answer is success:true with exactly that row, id
    included. *)
Theorem post_transaction (h : Date.host) (b : body) (d : db) :
  (missing_or_empty (date b) ∨ missing_or_empty (reference b) ∨
   missing_or_empty (type b) ∨ missing_or_empty (account b) →
   post_api_transactions h b d = (d, BadRequest "Missing required fields")
   ∧ status (post_api_transactions h b d).2 = 400
   ∧ success (post_api_transactions h b d).2 = false)
  ∧ (¬ (missing_or_empty (date b) ∨ missing_or_empty (reference b) ∨
        missing_or_empty (type b) ∨ missing_or_empty (account b)) →
     ∃ row : transaction,
       post_api_transactions h b d
         = (set_transactions (transactions d ++ [row]) (tx_id row) d, Ok (Some row))
       ∧ Value (tx_date row) = date b
       ∧ Value (tx_reference row) = reference b
       ∧ Value (tx_type row) = type b
       ∧ Value (tx_account row) = account b
       ∧ stored_number (debit b) (tx_debit row)
       ∧ stored_number (credit b) (tx_credit row)
       ∧ (debit b = Undefined → tx_debit row = Some 0%float)
       ∧ (credit b = Undefined → tx_credit row = Some 0%float)
       ∧ (∀ v, debit b = Value v → ¬ is_zero v → ¬ is_NaN v → tx_debit row = Some v)
       ∧ (∀ v, credit b = Value v → ¬ is_zero v → ¬ is_NaN v → tx_credit row = Some v)
       ∧ tx_created_at row = Date.datetime_now h
       ∧ (∀ t, t ∈ transactions d → tx_id t < tx_id row)).
Proof.
  split.
  - intros Hmiss%missing_required_spec. unfold post_api_transactions.
    by rewrite Hmiss.
  - intros Hok. rewrite <- missing_required_spec in Hok.
    apply not_true_is_false in Hok.
    unfold post_api_transactions. rewrite Hok.
    unfold insert_transaction.
    set (row := {| tx_id := next_rowid d |}). exists row.
    assert (getAsync (IdEq (Some (next_rowid d)))
              (set_transactions (transactions d ++ [row]) (next_rowid d) d)
            = Some row) as Hget.
    { unfold getAsync, select_where.
      change (transactions (set_transactions _ _ d)) with (transactions d ++ [row]).
      rewrite filter_app, filter_id_absent.
      - rewrite filter_cons_True; [done|]. by apply bool_decide_pack.
      - intros n [= <-] (t & Heq & Hin%tx_id_lt_next)%list_elem_of_fmap. lia. }
    rewrite Hget.
    assert (∀ x, not_ x = false → Value (text x) = x) as Htext.
    { by intros [| |[|c s]]. }
    unfold missing_required in Hok.
    apply orb_false_iff in Hok as [[[Hd Hr]%orb_false_iff Ht]%orb_false_iff Ha].
    pose proof (number_or_0_stored (debit b)) as Hdebit.
    pose proof (number_or_0_stored (credit b)) as Hcredit.
    split; [done|].
    repeat split; simpl; auto using tx_id_lt_next.
    + by intros ->.
    + by intros ->.
    + intros v Hv Hzero Hnan. rewrite Hv in Hdebit |- *.
      destruct Hdebit as (_ & _ & Hkept). by apply Hkept.
    + intros v Hv Hzero Hnan. rewrite Hv in Hcredit |- *.
      destruct Hcredit as (_ & _ & Hkept). by apply Hkept.
Qed.

Lemma post_transaction_witness :
  ∃ row : transaction,
    post_api_transactions host_utc body_invoice db_ledger
      = (set_transactions (transactions db_ledger ++ [row]) (tx_id row) db_ledger,
         Ok (Some row))
    ∧ tx_debit row = Some 25%float
    ∧ tx_credit row = Some 0%float
    ∧ (∀ t, t ∈ transactions db_ledger → tx_id t < tx_id row).
Proof.
  destruct (post_transaction host_utc body_invoice db_ledger) as [_ Hcreate].
  destruct Hcreate
    as (row & Hrun & _ & _ & _ & _ & _ & _ & _ & Hcredit & Hdebit & _ & _ & Hfresh).
  - unfold missing_or_empty. simpl. intuition discriminate.
  - exists row. split; [exact Hrun|]. split; [|split; [by apply Hcredit | exact Hfresh]].
    apply (Hdebit 25%float eq_refl).
    + intros [s Hs]. vm_compute in Hs. discriminate Hs.
    + intros Hs. vm_compute in Hs. discriminate Hs.
Defined.

Lemma filter_keeps_all {A} (P : A → Prop) `{∀ x, Decision (P x)} (l : list A) :
  (∀ x, x ∈ l → P x) → filter P l = l.
Proof.
  induction l as [|x l IH]; [done|]. intros Hall.
  rewrite filter_cons_True by (apply Hall; left).
  f_equal. apply IH. intros y Hy. apply Hall. by right.
Qed.

Lemma fmap_unless_hit {A} (hit : A → bool) (f : A → A) (l : list A) :
  (∀ x, x ∈ l → hit x = false) → (λ x, if hit x then f x else x) <$> l = l.
Proof.
  induction l as [|x l IH]; [done|]. intros Hall.
  rewrite fmap_cons, (Hall x) by left.
  f_equal. apply IH. intros y Hy. apply Hall. by right.
Qed.

(** C8.  When the id of the path names no stored transaction (it parses to
    NaN or to an integer that is not a rowid), DELETE answers success:true
    with changes 0 and PUT, given all required fields, answers success:true
    with changes 0 and no row; both leave the database unchanged. *)
Theorem write_unknown_id (id_param : string) (b : body) (d : db) :
  (∀ n, JS.parseInt id_param = Some n → n ∉ tx_id <$> transactions d) →
  delete_api_transactions_id id_param d = (d, Ok 0)
  ∧ success (delete_api_transactions_id id_param d).2 = true
  ∧ (missing_required b = false →
     put_api_transactions_id id_param b d = (d, Ok {| changes := 0; data := None |})
     ∧ success (put_api_transactions_id id_param b d).2 = true).
Proof.
  intros Habsent.
  pose proof (filter_id_absent _ _ Habsent) as Hnone.
  assert (delete_api_transactions_id id_param d = (d, Ok 0)) as Hdel.
  { unfold delete_api_transactions_id, delete_transaction. rewrite Hnone. simpl.
    rewrite filter_keeps_all; [by rewrite set_transactions_id|].
    intros t Hin Ht. by eapply (filter_nil_not_elem_of _ _ t Hnone). }
  split; [done|]. split; [by rewrite Hdel|]. intros Hok.
  assert (put_api_transactions_id id_param b d
          = (d, Ok {| changes := 0; data := None |})) as Hput.
  { unfold put_api_transactions_id, update_transaction. cbv zeta.
    rewrite Hok, Hnone, fmap_unless_hit.
    - rewrite set_transactions_id. unfold getAsync, select_where.
      by rewrite Hnone.
    - intros t Hin. apply not_true_is_false. intros Ht.
      by eapply (filter_nil_not_elem_of _ _ t Hnone); [rewrite Ht|]. }
  split; [done | by rewrite Hput].
Qed.

Lemma write_unknown_id_witness :
  delete_api_transactions_id "99" db_ledger = (db_ledger, Ok 0)
  ∧ put_api_transactions_id "99" body_invoice db_ledger
    = (db_ledger, Ok {| changes := 0; data := None |})
  ∧ delete_api_transactions_id "x1" db_ledger = (db_ledger, Ok 0).
Proof.
  destruct (write_unknown_id "99" body_invoice db_ledger) as (Hdel & _ & Hput).
  { intros n [= <-]. apply (bool_decide_unpack _). by vm_compute. }
  destruct (write_unknown_id "x1" body_invoice db_ledger) as (Hnan & _).
  { intros n [=]. }
  split; [exact Hdel|]. split; [|exact Hnan]. by apply Hput.
Defined.

(** ** GET /api/transactions/export *)

Lemma escape_quotes_cons (c : ascii) (s : string) :
  escape_quotes (String c s) =
  if decide (c = dquote) then String dquote (String dquote (escape_quotes s))
  else String c (escape_quotes s).
Proof. unfold escape_quotes. simpl. by destruct (decide (c = dquote)). Qed.

Lemma unescape_quotes_cons (c c' : ascii) (t : string) :
  unescape_quotes (String c (String c' t)) =
  if decide (c = dquote ∧ c' = dquote) then String dquote (unescape_quotes t)
  else String c (unescape_quotes (String c' t)).
Proof. reflexivity. Qed.

Lemma unescape_escape_quotes (s : string) : unescape_quotes (escape_quotes s) = s.
Proof.
  induction s as [|c s IH]; [done|].
  rewrite escape_quotes_cons. destruct (decide (c = dquote)) as [->|Hc].
  - simpl. by rewrite IH.
  - destruct (escape_quotes s) as [|c' t] eqn:Hesc.
    + simpl in IH. by rewrite <- IH.
    + rewrite unescape_quotes_cons, decide_False by tauto. by rewrite IH.
Qed.

Lemma count_escape_quotes (s : string) :
  count_char dquote (escape_quotes s) = (2 * count_char dquote s)%nat.
Proof.
  induction s as [|c s IH]; [done|].
  rewrite escape_quotes_cons. destruct (decide (c = dquote)) as [->|Hc].
  - simpl. rewrite IH. lia.
  - simpl. rewrite decide_False by done. by rewrite IH.
Qed.

Lemma one_line_app (a b : string) : one_line a → one_line b → one_line (a +:+ b).
Proof. unfold one_line. rewrite count_char_app. lia. Qed.

Lemma one_line_escape_quotes (s : string) : one_line s → one_line (escape_quotes s).
Proof.
  unfold one_line. induction s as [|c s IH]; [done|].
  rewrite escape_quotes_cons, count_char_cons.
  destruct (decide (c = dquote)) as [->|Hc].
  - rewrite !count_char_cons, !decide_False by done. exact IH.
  - rewrite count_char_cons. destruct (decide (c = line_feed)); [done | exact IH].
Qed.

Lemma one_line_quoted (v : string) : one_line v → one_line (quoted v).
Proof. intros Hv. unfold quoted. by apply (one_line_app (String dquote v)). Qed.

Lemma one_line_join (parts : list string) :
  Forall one_line parts → one_line (JS.join "," parts).
Proof.
  induction 1 as [|p ps Hp Hps IH]; [done|].
  destruct ps as [|p' ps]; [done|].
  change (JS.join "," (p :: p' :: ps)) with (p +:+ "," +:+ JS.join "," (p' :: ps)).
  by repeat apply one_line_app.
Qed.

(** C6 (amended).  GET /api/transactions/export writes the header line
    "Date,Reference,Type,Account,Debit,Credit", which has six columns, and
    then one line per transaction, the transactions ordered by date
    descending; a line holds date, reference, type, account, debit and
    credit, each between double quotes and separated by commas, where every
    double quote of reference and account is written twice and nothing else
    of them is changed.  What is written for a transaction ends with a line
    feed, and holds no other when its fields hold none.  A number is
    written as its text and NULL as "null". *)
Theorem export_csv (show : float → string) (d : db) :
  ∃ rows : list transaction,
    get_api_transactions_export show d
      = csv_header :: ((λ r, csv_line show r +:+ newline) <$> rows)
    ∧ rows ≡ₚ transactions d
    ∧ StronglySorted date_desc rows
    ∧ csv_header = header_names +:+ newline
    ∧ JS.split "," header_names
      = ["Date"; "Reference"; "Type"; "Account"; "Debit"; "Credit"]
    ∧ (∀ r, csv_line show r
            = quoted (tx_date r) +:+ "," +:+
              quoted (escape_quotes (tx_reference r)) +:+ "," +:+
              quoted (tx_type r) +:+ "," +:+
              quoted (escape_quotes (tx_account r)) +:+ "," +:+
              quoted (number_text show (tx_debit r)) +:+ "," +:+
              quoted (number_text show (tx_credit r)))
    ∧ (∀ s, unescape_quotes (escape_quotes s) = s
            ∧ count_char dquote (escape_quotes s) = (2 * count_char dquote s)%nat)
    ∧ (∀ r, Forall one_line
              [tx_date r; tx_reference r; tx_type r; tx_account r;
               number_text show (tx_debit r); number_text show (tx_credit r)] →
            one_line (csv_line show r))
    ∧ (∀ v, quoted v = String dquote (v +:+ String dquote EmptyString))
    ∧ (∀ x, number_text show (Some x) = show x)
    ∧ number_text show None = "null".
Proof.
  exists (SQL.order_by date_desc (transactions d)).
  split; [done|].
  split; [apply order_by_perm|].
  split; [apply order_by_sorted; apply _|].
  split; [done|]. split; [by vm_compute|]. split; [done|].
  split.
  { intros s. split; [apply unescape_escape_quotes | apply count_escape_quotes]. }
  split; [|done].
  intros r Hfields. unfold csv_line, csv_fields. apply one_line_join.
  apply Forall_cons in Hfields as [Hdate Hfields].
  apply Forall_cons in Hfields as [Hreference Hfields].
  apply Forall_cons in Hfields as [Htype Hfields].
  apply Forall_cons in Hfields as [Haccount Hfields].
  apply Forall_cons in Hfields as [Hdebit Hfields].
  apply Forall_cons in Hfields as [Hcredit _].
  repeat constructor; apply one_line_quoted;
    auto using one_line_escape_quotes.
Qed.

Lemma export_csv_witness :
  ∃ rows : list transaction,
    get_api_transactions_export show_whole db_ledger
      = csv_header :: ((λ r, csv_line show_whole r +:+ newline) <$> rows)
    ∧ Forall (λ r, one_line (csv_line show_whole r)) (transactions db_ledger).
Proof.
  destruct (export_csv show_whole db_ledger)
    as (rows & Hrun & _ & _ & _ & _ & _ & _ & Hline & _).
  exists rows. split; [exact Hrun|].
  repeat constructor; apply Hline; repeat constructor.
Defined.

(** C6, refuted as stated: the header line written first has six columns,
    not five. *)
Lemma export_csv_header_six_columns :
  head (get_api_transactions_export show_whole db_ledger)
    = Some (header_names +:+ newline)
  ∧ length (JS.split "," header_names) ≠ 5%nat.
Proof. split; [reflexivity | by vm_compute]. Qed.

(** ** GET /api/category-sales *)













(** * Further properties of the handlers *)

(** ** Rows addressed by a unique id *)

Section unique_key.
Context {A : Type} (key : A → Z).

Lemma filter_unique_key (id : option Z) (l : list A) (x : A) :
  NoDup (key <$> l) → x ∈ l → id = Some (key x) →
  filter (λ y, bool_decide (id = Some (key y))) l = [x].
Proof.
  intros Hnodup Hin ->. induction l as [|a l IH]; [by apply elem_of_nil in Hin|].
  rewrite fmap_cons, NoDup_cons in Hnodup. destruct Hnodup as [Hfresh Hnodup].
  apply elem_of_cons in Hin as [->|Hin].
  - rewrite filter_cons_True by by apply bool_decide_pack.
    f_equal. apply elem_of_nil_inv. intros y [Hy Hyl]%list_elem_of_filter.
    apply bool_decide_unpack in Hy. injection Hy as Hy.
    apply Hfresh. rewrite Hy. by apply list_elem_of_fmap_2.
  - rewrite filter_cons_False; [by apply IH|].
    intros Ha%bool_decide_unpack. injection Ha as Ha.
    apply Hfresh. rewrite <- Ha. by apply list_elem_of_fmap_2.
Qed.

Lemma fmap_hit_insert (f : A → A) (l : list A) (i : nat) (x : A) :
  NoDup (key <$> l) → l !! i = Some x →
  (λ y, if bool_decide (Some (key x) = Some (key y)) then f y else y) <$> l
  = <[i := f x]> l.
Proof.
  intros Hnodup Hi. apply list_eq. intros j.
  rewrite list_lookup_fmap.
  destruct (decide (i = j)) as [<-|Hij].
  - rewrite list_lookup_insert_eq by by eapply lookup_lt_Some.
    rewrite Hi. simpl. by rewrite bool_decide_eq_true_2.
  - rewrite list_lookup_insert_ne by done.
    destruct (l !! j) as [y|] eqn:Hj; [|done]. simpl.
    rewrite bool_decide_eq_false_2; [done|].
    intros [= Hkey]. apply Hij.
    apply (NoDup_lookup (key <$> l) i j (key x)); [done|..];
      rewrite list_lookup_fmap; [by rewrite Hi | by rewrite Hj, Hkey].
Qed.

Lemma filter_miss_delete (l : list A) (i : nat) (x : A) :
  NoDup (key <$> l) → l !! i = Some x →
  filter (λ y, ¬ bool_decide (Some (key x) = Some (key y))) l = delete i l.
Proof.
  revert i. induction l as [|a l IH]; intros i; [done|].
  rewrite fmap_cons, NoDup_cons. intros [Hfresh Hnodup] Hi.
  destruct i as [|i]; simpl in Hi.
  - injection Hi as ->.
    rewrite filter_cons_False by (intros Hx; apply Hx; by apply bool_decide_pack).
    simpl. apply filter_keeps_all. intros y Hy Hhit%bool_decide_unpack.
    injection Hhit as Hhit. apply Hfresh. rewrite Hhit.
    by apply list_elem_of_fmap_2.
  - rewrite filter_cons_True.
    + simpl. f_equal. by apply IH.
    + intros Hhit%bool_decide_unpack. injection Hhit as Hhit.
      apply Hfresh. rewrite <- Hhit.
      apply list_elem_of_fmap_2. by eapply list_elem_of_lookup_2.
Qed.

Lemma fmap_hit_keys (id : option Z) (f : A → A) (l : list A) :
  (∀ y, key (f y) = key y) →
  key <$> ((λ y, if bool_decide (id = Some (key y)) then f y else y) <$> l)
  = key <$> l.
Proof.
  intros Hkey. rewrite <- list_fmap_compose. apply list_fmap_ext.
  intros j y _. simpl. by destruct (bool_decide _).
Qed.
End unique_key.

(** ** GET /api/inventory *)

#[global] Instance stock_asc_total : Total stock_asc.
Proof.
  intros a b. unfold stock_asc.
  destruct (inv_stock a), (inv_stock b); auto; lia.
Qed.

#[global] Instance stock_asc_trans : Transitive stock_asc.
Proof.
  intros a b c. unfold stock_asc.
  destruct (inv_stock a), (inv_stock b), (inv_stock c); auto; try done; lia.
Qed.

(** X1.  GET /api/inventory answers with every inventory item exactly once,
    ordered by stock ascending, the items without a stock (NULL) first. *)
Theorem inventory_lowest_stock_first (d : db) :
  ∃ items : list inventory_item,
    get_api_inventory d = Ok items
    ∧ items ≡ₚ inventory d
    ∧ StronglySorted stock_asc items
    ∧ (∀ i j a b, items !! i = Some a → items !! j = Some b → (i < j)%nat →
         inv_stock b = None → inv_stock a = None)
    ∧ (∀ i j a b x y, items !! i = Some a → items !! j = Some b → (i < j)%nat →
         inv_stock a = Some x → inv_stock b = Some y → x ≤ y).
Proof.
  exists (SQL.order_by stock_asc (inventory d)).
  pose proof (order_by_sorted stock_asc (inventory d)) as Hsorted.
  split; [done|]. split; [apply order_by_perm|]. split; [done|].
  assert (∀ i j a b, SQL.order_by stock_asc (inventory d) !! i = Some a →
            SQL.order_by stock_asc (inventory d) !! j = Some b → (i < j)%nat →
            stock_asc a b) as Hlt.
  { intros i j a b Ha Hb Hij.
    by eapply (sorted_lookup stock_asc). }
  split.
  - intros i j a b Ha Hb Hij Hnull. specialize (Hlt i j a b Ha Hb Hij).
    unfold stock_asc in Hlt. rewrite Hnull in Hlt. by destruct (inv_stock a).
  - intros i j a b x y Ha Hb Hij Hx Hy. specialize (Hlt i j a b Ha Hb Hij).
    unfold stock_asc in Hlt. by rewrite Hx, Hy in Hlt.
Qed.

Lemma inventory_item_eta (d : db) : set_inventory (inventory d) d = d.
Proof. by destruct d. Qed.

(** ** PUT /api/inventory/:id *)

(** X2.  PUT /api/inventory/:id for the id of a stored item (ids unique):
    the answer reports one change and returns the row that now stands at the
    position of the item, the only position of the table that changes.  The
    row keeps the id, sku and name of the item; its stock, reorder level and
    status are the submitted ones, each of them NULL when the property is
    omitted or null: the body is not validated.  The other tables and the
    rowid counter are as before. *)
Theorem put_inventory_existing (id_param : string) (b : Inventory.body) (d : db)
    (i : nat) (item : inventory_item) :
  NoDup (inv_id <$> inventory d) →
  inventory d !! i = Some item →
  JS.parseInt id_param = Some (inv_id item) →
  ∃ row : inventory_item,
    (put_api_inventory_id id_param b d).2
      = Ok {| Inventory.changes := 1; Inventory.data := Some row |}
    ∧ inventory (put_api_inventory_id id_param b d).1 !! i = Some row
    ∧ length (inventory (put_api_inventory_id id_param b d).1) = length (inventory d)
    ∧ (∀ j, j ≠ i →
         inventory (put_api_inventory_id id_param b d).1 !! j = inventory d !! j)
    ∧ transactions (put_api_inventory_id id_param b d).1 = transactions d
    ∧ transactions_seq (put_api_inventory_id id_param b d).1 = transactions_seq d
    ∧ categories (put_api_inventory_id id_param b d).1 = categories d
    ∧ category_sales (put_api_inventory_id id_param b d).1 = category_sales d
    ∧ inv_id row = inv_id item
    ∧ inv_sku row = inv_sku item
    ∧ inv_name row = inv_name item
    ∧ stored_value (Inventory.stock b) (inv_stock row)
    ∧ stored_value (Inventory.reorder_level b) (inv_reorder_level row)
    ∧ stored_value (Inventory.status b) (inv_status row).
Proof.
  intros Hnodup Hi Hid.
  assert (put_api_inventory_id id_param b d
    = (set_inventory (<[i := restock b item]> (inventory d)) d,
       Ok {| Inventory.changes := 1; Inventory.data := Some (restock b item) |}))
    as Hrun.
  { unfold put_api_inventory_id, update_inventory, inventory_hit. rewrite Hid.
    rewrite (filter_unique_key inv_id _ _ item Hnodup) by
      (by apply list_elem_of_lookup_2 in Hi).
    change (inventory (set_inventory ?l d)) with l.
    rewrite (filter_unique_key inv_id _ _ (restock b item)); [| |  |done].
    - by rewrite (fmap_hit_insert inv_id _ _ i item).
    - by rewrite (fmap_hit_keys inv_id).
    - rewrite (fmap_hit_insert inv_id _ _ i item) by done.
      apply (list_elem_of_lookup_2 _ i). apply list_lookup_insert_eq.
      by eapply lookup_lt_Some. }
  exists (restock b item). rewrite Hrun. cbn [fst snd set_inventory inventory
    transactions transactions_seq categories category_sales].
  split; [done|].
  split; [apply list_lookup_insert_eq; by eapply lookup_lt_Some|].
  split; [by rewrite length_insert|].
  split; [intros j Hj; by apply list_lookup_insert_ne|].
  do 7 (split; [done|]).
  unfold restock, stored_value. cbn.
  split; [|split].
  - by destruct (Inventory.stock b).
  - by destruct (Inventory.reorder_level b).
  - by destruct (Inventory.status b).
Qed.

Lemma put_inventory_existing_witness :
  ∃ row : inventory_item,
    (put_api_inventory_id "3" body_restock db_stockroom).2
      = Ok {| Inventory.changes := 1; Inventory.data := Some row |}
    ∧ inventory (put_api_inventory_id "3" body_restock db_stockroom).1 !! 2%nat
      = Some row
    ∧ inv_id row = 3 ∧ inv_sku row = "PAD" ∧ inv_name row = "Pad"
    ∧ inv_stock row = Some 25
    ∧ inv_reorder_level row = None
    ∧ inv_status row = Some "ok".
Proof.
  destruct (put_inventory_existing "3" body_restock db_stockroom 2
              {| inv_id := 3; inv_sku := "PAD"; inv_name := "Pad";
                 inv_stock := Some 3; inv_reorder_level := Some 5;
                 inv_status := Some "low" |})
    as (row & Hrun & Hrow & _ & _ & _ & _ & _ & _ & Hid & Hsku & Hname
        & Hstock & Hlevel & Hstatus).
  - apply (bool_decide_unpack _). by vm_compute.
  - reflexivity.
  - reflexivity.
  - exists row. repeat split; assumption.
Defined.

(** X3.  PUT /api/inventory/:id for an id that names no stored item (it
    parses to NaN or to no stored id) succeeds with changes 0 and no row,
    and leaves the database as it was. *)
Theorem put_inventory_unknown (id_param : string) (b : Inventory.body) (d : db) :
  (∀ n, JS.parseInt id_param = Some n → n ∉ inv_id <$> inventory d) →
  put_api_inventory_id id_param b d
  = (d, Ok {| Inventory.changes := 0; Inventory.data := None |}).
Proof.
  intros Habsent.
  assert (∀ x, x ∈ inventory d → inventory_hit (JS.parseInt id_param) x = false)
    as Hmiss.
  { intros x Hx. apply bool_decide_eq_false_2. intros Hid.
    apply (Habsent _ Hid). by apply list_elem_of_fmap_2. }
  assert (filter (λ x, inventory_hit (JS.parseInt id_param) x) (inventory d) = [])
    as Hnone.
  { apply elem_of_nil_inv. intros x [Hx Hin]%list_elem_of_filter.
    by rewrite (Hmiss x Hin) in Hx. }
  unfold put_api_inventory_id, update_inventory.
  rewrite Hnone, fmap_unless_hit by done.
  by rewrite inventory_item_eta, Hnone.
Qed.

Lemma put_inventory_unknown_witness :
  put_api_inventory_id "7" body_restock db_stockroom
  = (db_stockroom, Ok {| Inventory.changes := 0; Inventory.data := None |})
  ∧ put_api_inventory_id "pad" body_restock db_stockroom
    = (db_stockroom, Ok {| Inventory.changes := 0; Inventory.data := None |}).
Proof.
  split; apply put_inventory_unknown.
  - intros n [= <-]. apply (bool_decide_unpack _). by vm_compute.
  - intros n [=].
Defined.

(** ** Reading and writing one transaction *)

Lemma holds_IdEq (id : option Z) (rows : list transaction) :
  filter (λ t, holds (IdEq id) t) rows
  = filter (λ t, bool_decide (id = Some (tx_id t))) rows.
Proof. reflexivity. Qed.

Lemma update_transaction_eq (b : body) (id : option Z) (d : db) :
  update_transaction b id d
  = (Z.of_nat (length (filter (λ t, bool_decide (id = Some (tx_id t))) (transactions d))),
     set_transactions
       ((λ t, if bool_decide (id = Some (tx_id t)) then rewritten b t else t)
          <$> transactions d)
       (transactions_seq d) d).
Proof. reflexivity. Qed.

Lemma delete_transaction_eq (id : option Z) (d : db) :
  delete_transaction id d
  = (Z.of_nat (length (filter (λ t, bool_decide (id = Some (tx_id t))) (transactions d))),
     set_transactions
       (filter (λ t, ¬ bool_decide (id = Some (tx_id t))) (transactions d))
       (transactions_seq d) d).
Proof. reflexivity. Qed.

(** X4.  [getAsync] of SELECT ... WHERE id = ? over a table with unique
    rowids finds a row exactly when it is the stored row of that id, and
    nothing exactly when no stored row has the id. *)
Theorem getAsync_by_id (d : db) (n : Z) :
  NoDup (tx_id <$> transactions d) →
  (∀ t, getAsync (IdEq (Some n)) d = Some t ↔ t ∈ transactions d ∧ tx_id t = n)
  ∧ (getAsync (IdEq (Some n)) d = None ↔ n ∉ tx_id <$> transactions d)
  ∧ getAsync (IdEq None) d = None.
Proof.
  intros Hnodup. unfold getAsync, select_where. rewrite !holds_IdEq.
  assert (∀ t, t ∈ transactions d → tx_id t = n →
            filter (λ t, bool_decide (Some n = Some (tx_id t))) (transactions d) = [t])
    as Hone.
  { intros t Hin <-. by apply (filter_unique_key tx_id). }
  split; [|split].
  - intros t. split.
    + intros Hhead. apply head_Some_elem_of, list_elem_of_filter in Hhead
        as [Hid%bool_decide_unpack Hin]. by injection Hid as ->.
    + intros [Hin Hid]. by rewrite (Hone t Hin Hid).
  - split.
    + intros Hhead (t & -> & Hin)%list_elem_of_fmap.
      by rewrite (Hone t Hin eq_refl) in Hhead.
    + intros Habsent.
      replace (filter _ (transactions d)) with (@nil transaction); [done|].
      symmetry. apply elem_of_nil_inv.
      intros t [Hid%bool_decide_unpack Hin]%list_elem_of_filter.
      injection Hid as ->. apply Habsent. by apply list_elem_of_fmap_2.
  - replace (filter _ (transactions d)) with (@nil transaction); [done|].
    symmetry. apply elem_of_nil_inv.
    by intros t [Hid%bool_decide_unpack _]%list_elem_of_filter.
Qed.

Lemma getAsync_by_id_witness :
  getAsync (IdEq (Some 2)) db_ledger
    = Some (sample_tx 2 "2026-11-03" "EXP-1" "expense" "Rent" 40)
  ∧ getAsync (IdEq (Some 9)) db_ledger = None.
Proof.
  destruct (getAsync_by_id db_ledger 2) as (Hsome & _).
  { apply (bool_decide_unpack _). by vm_compute. }
  destruct (getAsync_by_id db_ledger 9) as (_ & Hnone & _).
  { apply (bool_decide_unpack _). by vm_compute. }
  split.
  - apply Hsome. split; [|reflexivity]. by apply (list_elem_of_lookup_2 _ 1).
  - apply Hnone. apply (bool_decide_unpack _). by vm_compute.
Defined.

(** X5.  PUT /api/transactions/:id for the id of a stored row (rowids
    unique): a body that lacks a required field is refused with 400 and
    nothing changes; otherwise the answer reports one change and returns the
    row with the submitted fields and its old id and creation time, exactly
    that position of the table changes, and the AUTOINCREMENT counter stays.
    The row carries the submitted debit and credit: 0 for an omitted one,
    NULL for [null], a number as it is, a zero as 0. *)
Theorem put_transaction_existing (id_param : string) (b : body) (d : db)
    (i : nat) (t : transaction) :
  NoDup (tx_id <$> transactions d) →
  transactions d !! i = Some t →
  JS.parseInt id_param = Some (tx_id t) →
  (missing_required b = true →
   put_api_transactions_id id_param b d = (d, BadRequest "Missing required fields"))
  ∧ (missing_required b = false →
     put_api_transactions_id id_param b d
     = (set_transactions (<[i := rewritten b t]> (transactions d))
          (transactions_seq d) d,
        Ok {| changes := 1; data := Some (rewritten b t) |}))
  ∧ tx_id (rewritten b t) = tx_id t
  ∧ tx_created_at (rewritten b t) = tx_created_at t
  ∧ (missing_required b = false →
     Value (tx_date (rewritten b t)) = date b
     ∧ Value (tx_reference (rewritten b t)) = reference b
     ∧ Value (tx_type (rewritten b t)) = type b
     ∧ Value (tx_account (rewritten b t)) = account b)
  ∧ stored_number (debit b) (tx_debit (rewritten b t))
  ∧ stored_number (credit b) (tx_credit (rewritten b t))
  ∧ (debit b = Undefined → tx_debit (rewritten b t) = Some 0%float)
  ∧ (credit b = Undefined → tx_credit (rewritten b t) = Some 0%float)
  ∧ (∀ v, debit b = Value v → ¬ is_zero v → ¬ is_NaN v →
       tx_debit (rewritten b t) = Some v)
  ∧ (∀ v, credit b = Value v → ¬ is_zero v → ¬ is_NaN v →
       tx_credit (rewritten b t) = Some v).
Proof.
  intros Hnodup Hi Hid.
  split; [intros Hmiss; unfold put_api_transactions_id; by rewrite Hmiss|].
  split.
  { intros Hok. unfold put_api_transactions_id. cbv zeta.
    rewrite Hok, Hid, update_transaction_eq. unfold getAsync, select_where.
    rewrite !holds_IdEq.
    rewrite (filter_unique_key tx_id _ _ t Hnodup) by
      (by apply list_elem_of_lookup_2 in Hi).
    change (transactions (set_transactions ?l _ d)) with l.
    rewrite (filter_unique_key tx_id _ _ (rewritten b t)); [| | |done].
    - by rewrite (fmap_hit_insert tx_id _ _ i t).
    - by rewrite (fmap_hit_keys tx_id).
    - rewrite (fmap_hit_insert tx_id _ _ i t) by done.
      apply (list_elem_of_lookup_2 _ i). apply list_lookup_insert_eq.
      by eapply lookup_lt_Some. }
  split; [done|]. split; [done|].
  split.
  { intros Hok. unfold missing_required in Hok.
    apply orb_false_iff in Hok as [[[Hd Hr]%orb_false_iff Ht]%orb_false_iff Ha].
    assert (∀ x, not_ x = false → Value (text x) = x) as Htext
      by by intros [| |[|c s]].
    simpl. auto. }
  pose proof (number_or_0_stored (debit b)) as Hdebit.
  pose proof (number_or_0_stored (credit b)) as Hcredit.
  cbn [rewritten tx_debit tx_credit].
  split; [done|]. split; [done|].
  split; [by intros ->|]. split; [by intros ->|].
  split.
  - intros v Hv Hzero Hnan. rewrite Hv in Hdebit |- *.
    destruct Hdebit as (_ & _ & Hkept). by apply Hkept.
  - intros v Hv Hzero Hnan. rewrite Hv in Hcredit |- *.
    destruct Hcredit as (_ & _ & Hkept). by apply Hkept.
Qed.

Lemma put_transaction_existing_witness :
  put_api_transactions_id "2" body_invoice db_ledger
  = (set_transactions (<[1%nat := rewritten body_invoice
                                    (sample_tx 2 "2026-11-03" "EXP-1" "expense" "Rent" 40)]>
                         (transactions db_ledger))
       (transactions_seq db_ledger) db_ledger,
     Ok {| changes := 1;
           data := Some (rewritten body_invoice
                           (sample_tx 2 "2026-11-03" "EXP-1" "expense" "Rent" 40)) |})
  ∧ tx_debit (rewritten body_invoice
                (sample_tx 2 "2026-11-03" "EXP-1" "expense" "Rent" 40)) = Some 25%float
  ∧ tx_credit (rewritten body_invoice
                 (sample_tx 2 "2026-11-03" "EXP-1" "expense" "Rent" 40)) = Some 0%float.
Proof.
  destruct (put_transaction_existing "2" body_invoice db_ledger 1
              (sample_tx 2 "2026-11-03" "EXP-1" "expense" "Rent" 40))
    as (_ & Hput & _ & _ & _ & _ & _ & _ & Hcredit & Hdebit & _).
  - apply (bool_decide_unpack _). by vm_compute.
  - reflexivity.
  - reflexivity.
  - split; [apply Hput; reflexivity|]. split; [|by apply Hcredit].
    apply (Hdebit 25%float eq_refl).
    + intros [s Hs]. vm_compute in Hs. discriminate Hs.
    + intros Hs. vm_compute in Hs. discriminate Hs.
Defined.

(** X6.  DELETE /api/transactions/:id for the id of a stored row (rowids
    unique) reports one change and removes exactly that row, the others
    keeping their order; the AUTOINCREMENT counter stays, and the same
    DELETE once more reports zero changes and changes nothing. *)
Theorem delete_transaction_existing (id_param : string) (d : db) (i : nat)
    (t : transaction) :
  NoDup (tx_id <$> transactions d) →
  transactions d !! i = Some t →
  JS.parseInt id_param = Some (tx_id t) →
  delete_api_transactions_id id_param d
    = (set_transactions (delete i (transactions d)) (transactions_seq d) d, Ok 1)
  ∧ (t ∉ delete i (transactions d))
  ∧ delete_api_transactions_id id_param (delete_api_transactions_id id_param d).1
    = ((delete_api_transactions_id id_param d).1, Ok 0).
Proof.
  intros Hnodup Hi Hid.
  assert (tx_id t ∉ tx_id <$> delete i (transactions d)) as Hgone.
  { rewrite <- (filter_miss_delete tx_id _ i t Hnodup Hi).
    intros (y & Hy & [Hmiss _]%list_elem_of_filter)%list_elem_of_fmap.
    apply Hmiss. apply bool_decide_pack. by rewrite Hy. }
  assert (delete_api_transactions_id id_param d
    = (set_transactions (delete i (transactions d)) (transactions_seq d) d, Ok 1))
    as Hrun.
  { unfold delete_api_transactions_id. rewrite Hid, delete_transaction_eq.
    rewrite (filter_unique_key tx_id _ _ t Hnodup) by
      (by apply list_elem_of_lookup_2 in Hi).
    simpl. do 2 f_equal. by apply (filter_miss_delete tx_id). }
  split; [done|]. split.
  { intros Hin. apply Hgone. by apply list_elem_of_fmap_2. }
  rewrite Hrun. simpl.
  unfold delete_api_transactions_id. rewrite Hid, delete_transaction_eq.
  change (transactions (set_transactions ?l _ d)) with l.
  change (transactions_seq (set_transactions _ ?s d)) with s.
  rewrite (filter_id_absent (Some (tx_id t)) (delete i (transactions d)))
    by (by intros n [= <-]).
  rewrite filter_keeps_all.
  - simpl. by destruct d.
  - intros y Hy Hhit. simpl in Hhit. apply bool_decide_unpack in Hhit.
    injection Hhit as Hhit. apply Hgone. rewrite Hhit. by apply list_elem_of_fmap_2.
Qed.

Lemma delete_transaction_existing_witness :
  delete_api_transactions_id "2" db_ledger
  = (set_transactions
       [ sample_tx 1 "2026-10-05" "INV-1" "invoice" "Sales" 100;
         sample_tx 3 "2026-11-03" "inv-2" "invoice" "Sales" 60 ]
       (transactions_seq db_ledger) db_ledger, Ok 1).
Proof.
  refine (proj1 (delete_transaction_existing "2" db_ledger 1
                   (sample_tx 2 "2026-11-03" "EXP-1" "expense" "Rent" 40) _ _ _)).
  - apply (bool_decide_unpack _). by vm_compute.
  - reflexivity.
  - reflexivity.
Defined.

(** ** Sequences of writes *)

Lemma post_api_transactions_stored (h : Date.host) (b : body) (d : db) :
  missing_required b = false →
  post_api_transactions h b d
  = (set_transactions (transactions d ++ [created h b d]) (next_rowid d) d,
     Ok (Some (created h b d))).
Proof.
  intros Hok. unfold post_api_transactions, insert_transaction. rewrite Hok.
  fold (created h b d). cbv zeta. unfold getAsync, select_where.
  change (transactions (set_transactions ?l _ d)) with l.
  rewrite filter_app, filter_id_absent.
  - rewrite filter_cons_True; [done|]. by apply bool_decide_pack.
  - intros n [= <-] (t & Heq & Hin%tx_id_lt_next)%list_elem_of_fmap. lia.
Qed.

Lemma seq_lt_next (d : db) : transactions_seq d < next_rowid d.
Proof. unfold next_rowid. lia. Qed.

Lemma put_api_transactions_id_db (id_param : string) (b : body) (d : db) :
  transactions_seq (put_api_transactions_id id_param b d).1 = transactions_seq d
  ∧ tx_id <$> transactions (put_api_transactions_id id_param b d).1
    = tx_id <$> transactions d.
Proof.
  unfold put_api_transactions_id. destruct (missing_required b); [done|].
  cbv zeta. rewrite update_transaction_eq. simpl. split; [done|].
  by apply (fmap_hit_keys tx_id).
Qed.

Lemma delete_api_transactions_id_db (id_param : string) (d : db) :
  transactions_seq (delete_api_transactions_id id_param d).1 = transactions_seq d
  ∧ transactions (delete_api_transactions_id id_param d).1
    = filter (λ t, ¬ bool_decide (JS.parseInt id_param = Some (tx_id t)))
        (transactions d).
Proof.
  unfold delete_api_transactions_id. by rewrite delete_transaction_eq.
Qed.

Lemma serve_created (h : Date.host) (r : request) (d : db) :
  transactions_seq d ≤ transactions_seq (serve h r d).1
  ∧ ∀ i, (serve h r d).2 = Some i →
         transactions_seq d < i ∧ i = transactions_seq (serve h r d).1.
Proof.
  destruct r as [b|id_param b|id_param]; unfold serve; cbn [fst snd].
  - destruct (missing_required b) eqn:Hmiss.
    + unfold post_api_transactions. rewrite Hmiss. simpl. split; [lia|done].
    + rewrite post_api_transactions_stored by done. simpl.
      pose proof (seq_lt_next d). split; [lia|]. intros i [= <-]. by split.
  - destruct (put_api_transactions_id_db id_param b d) as [-> _].
    split; [lia|done].
  - destruct (delete_api_transactions_id_db id_param d) as [-> _].
    split; [lia|done].
Qed.

Lemma serve_well_keyed (h : Date.host) (r : request) (d : db) :
  well_keyed d → well_keyed (serve h r d).1.
Proof.
  intros [Hnodup Hseq].
  destruct r as [b|id_param b|id_param]; unfold serve; cbn [fst snd].
  - destruct (missing_required b) eqn:Hmiss.
    + unfold post_api_transactions. rewrite Hmiss. by split.
    + rewrite post_api_transactions_stored by done. simpl. split.
      * change (transactions (set_transactions ?l _ d)) with l.
        rewrite fmap_app. apply NoDup_app. split; [done|]. split.
        -- intros n (t & -> & Hin%tx_id_lt_next)%list_elem_of_fmap.
           intros [Heq|[]%elem_of_nil]%elem_of_cons. simpl in Heq. lia.
        -- apply NoDup_singleton.
      * intros t. change (transactions (set_transactions ?l _ d)) with l.
        change (transactions_seq (set_transactions _ ?s d)) with s.
        intros [Hin%tx_id_lt_next|Hin]%elem_of_app; [lia|].
        apply list_elem_of_singleton in Hin as ->. simpl. lia.
  - destruct (put_api_transactions_id_db id_param b d) as [Hs Hids].
    split; [by rewrite Hids|].
    intros t Hin. rewrite Hs.
    apply (list_elem_of_fmap_2 tx_id) in Hin. rewrite Hids in Hin.
    apply list_elem_of_fmap in Hin as (t' & -> & Hin'). by apply Hseq.
  - destruct (delete_api_transactions_id_db id_param d) as [Hs Hrows].
    unfold well_keyed. rewrite Hs, Hrows. split.
    + eapply sublist_NoDup; [exact Hnodup|]. apply fmap_sublist, sublist_filter.
    + intros t [_ Hin]%list_elem_of_filter. by apply Hseq.
Qed.

Lemma serve_all_cons (h : Date.host) (r : request) (rs : list request) (d : db) :
  serve_all h (r :: rs) d
  = ((serve_all h rs (serve h r d).1).1,
     from_option (λ i, [i]) [] (serve h r d).2 ++ (serve_all h rs (serve h r d).1).2).
Proof.
  simpl. destruct (serve h r d) as [d' c]. simpl.
  by destruct (serve_all h rs d').
Qed.

Lemma serve_all_created (h : Date.host) (rs : list request) (d : db) :
  transactions_seq d ≤ transactions_seq (serve_all h rs d).1
  ∧ StronglySorted Z.lt (serve_all h rs d).2
  ∧ Forall (λ i, transactions_seq d < i ≤ transactions_seq (serve_all h rs d).1)
      (serve_all h rs d).2.
Proof.
  revert d. induction rs as [|r rs IH]; intros d.
  { simpl. split; [lia|]. split; constructor. }
  rewrite serve_all_cons. simpl.
  destruct (serve_created h r d) as [Hle Hnew].
  destruct (IH (serve h r d).1) as (Hle' & Hsorted & Hall).
  split; [lia|].
  assert (Forall (λ i, transactions_seq d < i
                       ≤ transactions_seq (serve_all h rs (serve h r d).1).1)
            (serve_all h rs (serve h r d).1).2) as Hall'.
  { eapply Forall_impl; [exact Hall|]. simpl. intros i Hi. lia. }
  destruct (serve h r d).2 as [i|] eqn:Hc; simpl; [|by split].
  destruct (Hnew i eq_refl) as [Hlt Hi]. split.
  - constructor; [done|]. eapply Forall_impl; [exact Hall|]. simpl. intros j Hj. lia.
  - constructor; [lia|done].
Qed.

(** X7.  Unique rowids that the AUTOINCREMENT counter bounds are an invariant
    of the three writing handlers: after any sequence of POST, PUT and DELETE
    requests on /api/transactions the table still has pairwise distinct
    rowids, none above the counter. *)
Theorem writes_keep_rowids_unique (h : Date.host) (rs : list request) (d : db) :
  well_keyed d → well_keyed (serve_all h rs d).1.
Proof.
  revert d. induction rs as [|r rs IH]; intros d Hd; [done|].
  rewrite serve_all_cons. simpl. by apply IH, serve_well_keyed.
Qed.

Lemma writes_keep_rowids_unique_witness :
  well_keyed
    (serve_all host_utc [POST body_invoice; DELETE "2"; PUT "1" body_rent;
                         POST body_no_account; POST body_rent] db_ledger).1.
Proof.
  apply (writes_keep_rowids_unique host_utc _ db_ledger).
  split.
  - apply (bool_decide_unpack _). by vm_compute.
  - apply Forall_forall. repeat constructor; vm_compute; discriminate.
Defined.

(** X8.  The rowids that a sequence of POST, PUT and DELETE requests gives
    out are strictly increasing in the order of the requests, each above
    every rowid the table held before the sequence, whether or not that row
    was deleted on the way: no rowid is given out twice or reused. *)
Theorem rowids_never_reused (h : Date.host) (rs : list request) (d : db) :
  well_keyed d →
  StronglySorted Z.lt (serve_all h rs d).2
  ∧ NoDup (serve_all h rs d).2
  ∧ ∀ i t, i ∈ (serve_all h rs d).2 → t ∈ transactions d → tx_id t < i.
Proof.
  intros [_ Hseq].
  destruct (serve_all_created h rs d) as (_ & Hsorted & Hall).
  split; [done|]. split.
  - clear Hall. induction Hsorted as [|i ids _ IH Hlt]; constructor; [|done].
    intros Hin. rewrite Forall_forall in Hlt. specialize (Hlt i Hin). lia.
  - intros i t Hi Ht. rewrite Forall_forall in Hall.
    specialize (Hall i Hi). specialize (Hseq t Ht). lia.
Qed.

Lemma rowids_never_reused_witness :
  (serve_all host_utc [POST body_invoice; DELETE "4"; POST body_rent] db_ledger).2
    = [4; 5]
  ∧ StronglySorted Z.lt
      (serve_all host_utc [POST body_invoice; DELETE "4"; POST body_rent] db_ledger).2.
Proof.
  split; [reflexivity|].
  refine (proj1 (rowids_never_reused host_utc
                   [POST body_invoice; DELETE "4"; POST body_rent] db_ledger _)).
  split.
  - apply (bool_decide_unpack _). by vm_compute.
  - apply Forall_forall. repeat constructor; vm_compute; discriminate.
Defined.

(** X9.  A DELETE of the row a successful POST has just returned reports one
    change and leaves the table with the rows it had before the POST, in the
    same order; the AUTOINCREMENT counter stays at the deleted rowid, so the
    next row gets the rowid after it. *)
Theorem post_then_delete (h : Date.host) (b : body) (d : db) (row : transaction)
    (id_param : string) :
  (post_api_transactions h b d).2 = Ok (Some row) →
  JS.parseInt id_param = Some (tx_id row) →
  delete_api_transactions_id id_param (post_api_transactions h b d).1
    = (set_transactions (transactions d) (tx_id row) d, Ok 1)
  ∧ next_rowid (set_transactions (transactions d) (tx_id row) d) = tx_id row + 1
  ∧ transactions_seq d < tx_id row.
Proof.
  intros Hpost Hid.
  destruct (missing_required b) eqn:Hmiss.
  { unfold post_api_transactions in Hpost. by rewrite Hmiss in Hpost. }
  rewrite post_api_transactions_stored in Hpost |- * by done.
  simpl in Hpost. injection Hpost as <-. simpl in Hid |- *.
  assert (∀ t, t ∈ transactions d → Some (next_rowid d) ≠ Some (tx_id t)) as Hold.
  { intros t Hin%tx_id_lt_next [= Heq]. lia. }
  split; [|split; [|apply seq_lt_next]].
  - unfold delete_api_transactions_id. rewrite Hid, delete_transaction_eq.
    change (transactions (set_transactions ?l _ d)) with l.
    change (transactions_seq (set_transactions _ ?s d)) with s.
    rewrite !filter_app.
    pose proof (filter_id_absent (Some (next_rowid d)) (transactions d)) as Habsent.
    rewrite holds_IdEq in Habsent. rewrite Habsent.
    + rewrite (filter_cons_True
                 (λ t : transaction, bool_decide (Some (next_rowid d) = Some (tx_id t))))
        by (by apply bool_decide_pack).
      rewrite filter_keeps_all.
      * rewrite (filter_cons_False
                   (λ t : transaction,
                      ¬ bool_decide (Some (next_rowid d) = Some (tx_id t))));
          [by rewrite app_nil_r|].
        intros Hno. apply Hno. by apply bool_decide_pack.
      * intros t Hin Hhit%bool_decide_unpack. by apply (Hold t).
    + intros n [= <-] (t & Heq & Hin)%list_elem_of_fmap.
      apply (Hold t Hin). by rewrite Heq.
  - unfold next_rowid at 1.
    change (transactions (set_transactions ?l _ d)) with l.
    change (transactions_seq (set_transactions _ ?s d)) with s.
    unfold next_rowid. lia.
Qed.

Lemma post_then_delete_witness :
  delete_api_transactions_id "4"
    (post_api_transactions host_utc body_invoice db_ledger).1
  = (set_transactions (transactions db_ledger) 4 db_ledger, Ok 1).
Proof.
  refine (proj1 (post_then_delete host_utc body_invoice db_ledger
                   (created host_utc body_invoice db_ledger) "4" _ _)).
  - reflexivity.
  - reflexivity.
Defined.

(** ** GET /api/transactions: errors, pages and order *)

Lemma trimmed_None (x : query_value) : trimmed x = None ↔ is_structured x.
Proof.
  unfold is_structured. destruct x; simpl; split; try done.
  - by intros [? ?].
  - by intros [? ?].
  - intros _. by eexists.
Qed.

Lemma must_be_int_unusable (v : option Z) : v ≫= SQL.must_be_int = None ↔ unusable v.
Proof.
  unfold unusable. destruct v as [z|]; simpl; [|by split].
  pose proof (to_double_in_range z) as Hrange. split.
  - intros Hnone z' [= <-].
    destruct (decide (- 2 ^ 63 < JS.to_double z < 2 ^ 63)) as [Hin|Hout].
    { by rewrite must_be_int_Some in Hnone. }
    destruct (decide (Z.abs z < 2 ^ 63 - 512)) as [Hlt|]; [|lia].
    destruct Hout. by apply Hrange.
  - intros Hz. apply must_be_int_None. intros Hin%Hrange.
    specialize (Hz z eq_refl). lia.
Qed.

Lemma get_api_transactions_cases (q type_ limit offset : query_value) (d : db) :
  get_api_transactions q type_ limit offset d
  = match trimmed q, trimmed type_, parsed limit "100" ≫= SQL.must_be_int,
          parsed offset "0" ≫= SQL.must_be_int with
    | Some q', Some ty, Some l, Some o =>
        Ok (SQL.limit_offset l o
              (SQL.order_by date_id_desc (select_where (list_where q' ty) d)))
    | _, _, _, _ => ServerError "Server error"
    end.
Proof.
  unfold get_api_transactions.
  destruct (trimmed q), (trimmed type_), (parsed limit "100") as [l|],
    (parsed offset "0") as [o|]; simpl; try done;
    destruct (SQL.must_be_int l); simpl; try done;
    by destruct (SQL.must_be_int o).
Qed.

(** X10.  GET /api/transactions answers 500 "Server error" exactly when [q]
    or [type] is an array or object (a repeated parameter: it has no
    [trim]), or [limit] or [offset] (the default "100", resp. "0", for an
    absent or empty one; the rendering of an array or object) does not
    parse to an integer below 2^63 - 512 in magnitude: it parses to NaN
    when the text does not start, after white space and a sign, with a
    decimal digit.  The handler never answers 400, and with [q] and [type]
    absent or texts, an absent or empty [limit] and [offset] never make it
    fail. *)
Theorem list_transactions_error (q type_ limit offset : query_value) (d : db) :
  (get_api_transactions q type_ limit offset d = ServerError "Server error"
   ↔ is_structured q ∨ is_structured type_
     ∨ unusable (JS.parseInt (read_text limit "100"))
     ∨ unusable (JS.parseInt (read_text offset "0")))
  ∧ (success (get_api_transactions q type_ limit offset d) = false
     ↔ is_structured q ∨ is_structured type_
       ∨ unusable (JS.parseInt (read_text limit "100"))
       ∨ unusable (JS.parseInt (read_text offset "0")))
  ∧ (∀ m, get_api_transactions q type_ limit offset d ≠ BadRequest m)
  ∧ (∀ q' type' : option string,
       q = given q' → type_ = given type' →
       (limit = Absent ∨ limit = Text EmptyString) →
       (offset = Absent ∨ offset = Text EmptyString) →
       get_api_transactions q type_ limit offset d
       = Ok (SQL.limit_offset 100 0 (listing q' type' d))).
Proof.
  assert (∀ q' type' : option string,
            q = given q' → type_ = given type' →
            (limit = Absent ∨ limit = Text EmptyString) →
            (offset = Absent ∨ offset = Text EmptyString) →
            get_api_transactions q type_ limit offset d
            = Ok (SQL.limit_offset 100 0 (listing q' type' d))) as Hdefault.
  { intros q' type' -> -> Hlimit Hoffset.
    rewrite (get_api_transactions_eq q' type' limit offset d 100 0).
    - done.
    - by destruct Hlimit as [-> | ->].
    - by destruct Hoffset as [-> | ->].
    - by vm_compute.
    - by vm_compute. }
  split; [|split; [|split; [|exact Hdefault]]]; clear Hdefault;
    rewrite <- ?parsed_read_text, <- ?must_be_int_unusable, <- ?trimmed_None;
    rewrite get_api_transactions_cases;
    destruct (trimmed q), (trimmed type_), (parsed limit "100" ≫= SQL.must_be_int),
      (parsed offset "0" ≫= SQL.must_be_int); simpl;
    try done; intuition congruence.
Qed.

(** X11.  Consecutive pages of GET /api/transactions tile the listing: with
    a limit [l ≥ 0], the page at offset [o ≥ 0] followed by the page at
    offset [o + l ≤ 2^53] is what lies between positions [o] and [o + 2l]
    of the ordered matching rows; a page holds [l] rows or as many as are
    left after [o], and none for limit 0. *)
Theorem list_transactions_pages (q type_ : option string)
    (limit offset next : query_value) (d : db) (l o : Z) :
  JS.parseInt (read_text limit "100") = Some l →
  JS.parseInt (read_text offset "0") = Some o →
  JS.parseInt (read_text next "0") = Some (o + l) →
  0 ≤ l → 0 ≤ o → o + l ≤ 2 ^ 53 →
  ∃ page rest : list transaction,
    get_api_transactions (given q) (given type_) limit offset d = Ok page
    ∧ get_api_transactions (given q) (given type_) limit next d = Ok rest
    ∧ take (Z.to_nat o) (listing q type_ d) ++ page ++ rest
      = take (Z.to_nat (o + l + l)) (listing q type_ d)
    ∧ Z.of_nat (length page)
      = Z.min l (Z.max 0 (Z.of_nat (length (listing q type_ d)) - o))
    ∧ (l = 0 → page = []).
Proof.
  intros Hl Ho Hnext Hl0 Ho0 Hmax. rewrite <- parsed_read_text in Hl, Ho, Hnext.
  exists (SQL.limit_offset l o (listing q type_ d)),
         (SQL.limit_offset l (o + l) (listing q type_ d)).
  assert (∀ z, 0 ≤ z ≤ o + l → JS.to_double z = z ∧ - 2 ^ 63 < JS.to_double z < 2 ^ 63)
    as Hsame.
  { intros z Hz. rewrite to_double_small by lia. lia. }
  destruct (Hsame l ltac:(lia)) as [Hdl Hrl].
  destruct (Hsame o ltac:(lia)) as [Hdo Hro].
  destruct (Hsame (o + l) ltac:(lia)) as [Hdn Hrn].
  split.
  { rewrite (get_api_transactions_eq q type_ limit offset d l o) by done.
    by rewrite Hdl, Hdo. }
  split.
  { rewrite (get_api_transactions_eq q type_ limit next d l (o + l)) by done.
    by rewrite Hdl, Hdn. }
  rewrite !limit_offset_nonneg by done.
  generalize (listing q type_ d). intros rows.
  split; [|split].
  - rewrite app_assoc, take_take_drop, <- Z2Nat.inj_add by lia.
    rewrite take_take_drop. f_equal. lia.
  - rewrite length_take, length_drop. lia.
  - intros ->. done.
Qed.

Lemma list_transactions_pages_witness :
  ∃ page rest : list transaction,
    get_api_transactions Absent Absent (Text "2") Absent db_ledger = Ok page
    ∧ get_api_transactions Absent Absent (Text "2") (Text "2") db_ledger = Ok rest
    ∧ take 0 (listing None None db_ledger) ++ page ++ rest
      = take 4 (listing None None db_ledger)
    ∧ Z.of_nat (length page) = 2.
Proof.
  destruct (list_transactions_pages None None (Text "2") Absent (Text "2")
              db_ledger 2 0)
    as (page & rest & Hpage & Hrest & Htile & Hlen & _);
    [reflexivity | reflexivity | reflexivity | lia | lia | lia |].
  exists page, rest. split; [exact Hpage|]. split; [exact Hrest|].
  split; [exact Htile|]. rewrite Hlen. reflexivity.
Defined.

Lemma like_chars_all_percent (q s : string) :
  all_percent q = true → SQL.like_chars (q +:+ "%") s = true.
Proof.
  induction q as [|c q IH] in s |- *; intros Hq; [apply like_percent_any|].
  simpl in Hq. apply andb_true_iff in Hq as [->%bool_decide_eq_true Hq].
  change (String "%" q +:+ "%") with (String "%" (q +:+ "%")).
  rewrite like_percent, IH by done. done.
Qed.

Lemma all_percent_no_NUL (q : string) :
  all_percent q = true → count_char SQL.NUL (q +:+ "%") = 0%nat.
Proof.
  induction q as [|c q IH]; [done|]. simpl.
  intros [->%bool_decide_eq_true Hq]%andb_true_iff. by rewrite IH.
Qed.

Lemma like_all_percent (q s : string) :
  all_percent q = true → SQL.like (q +:+ "%") s = true.
Proof.
  intros Hq. unfold SQL.like. rewrite (c_string_id (q +:+ "%")).
  - by apply like_chars_all_percent.
  - by apply all_percent_no_NUL.
Qed.

(** X12.  A search text that consists of [%] only (after trimming) filters
    nothing: GET /api/transactions answers as it does without [q]. *)
Theorem list_transactions_percent_only (q : option string)
    (type_ limit offset : query_value) (d : db) :
  all_percent (JS.trim (JS.or_string q EmptyString)) = true →
  get_api_transactions (given q) type_ limit offset d
  = get_api_transactions Absent type_ limit offset d.
Proof.
  intros Hq. unfold get_api_transactions. rewrite trimmed_given.
  change (trimmed Absent) with (Some EmptyString).
  set (q' := JS.trim (JS.or_string q EmptyString)) in *.
  cbn [mbind option_bind].
  destruct (trimmed type_) as [ty|]; [|done]. cbn [mbind option_bind].
  assert (select_where (list_where q' ty) d = select_where (list_where EmptyString ty) d)
    as ->; [|done].
  unfold select_where. apply list_filter_iff. intros t.
  unfold list_where. destruct q' as [|c q']; [done|].
  cbn [JS.truthy_string holds].
  change ("%" +:+ String c q' +:+ "%") with (String "%" (String c q') +:+ "%").
  rewrite !like_all_percent by done.
  by rewrite andb_true_r.
Qed.

Lemma list_transactions_percent_only_witness :
  get_api_transactions (Text " %% ") Absent Absent Absent db_ledger
  = get_api_transactions Absent Absent Absent Absent db_ledger.
Proof.
  apply (list_transactions_percent_only (Some " %% ") Absent Absent Absent db_ledger).
  reflexivity.
Defined.

Lemma unique_key_eq {A} (key : A → Z) (l : list A) (x y : A) :
  NoDup (key <$> l) → x ∈ l → y ∈ l → key x = key y → x = y.
Proof.
  induction l as [|a l IH]; [by intros _ ?%elem_of_nil|].
  rewrite fmap_cons, NoDup_cons. intros [Hfresh Hnodup].
  intros [->|Hx]%elem_of_cons [->|Hy]%elem_of_cons Hkey; [done| | |by apply IH].
  - destruct Hfresh. rewrite Hkey. by apply list_elem_of_fmap_2.
  - destruct Hfresh. rewrite <- Hkey. by apply list_elem_of_fmap_2.
Qed.

Lemma date_id_desc_tie (a b : transaction) :
  date_id_desc a b → date_id_desc b a → tx_id a = tx_id b.
Proof.
  unfold date_id_desc.
  intros [[Hne Hle]|[Heq Hid]] [[Hne' Hle']|[Heq' Hid']]; try congruence; [|lia].
  destruct Hne. by apply (anti_symm String.le).
Qed.

(** X13.  With unique rowids the answer of GET /api/transactions does not
    depend on the order in which the table stores its rows: ORDER BY date
    DESC, id DESC leaves no tie open. *)
Theorem list_transactions_storage_order (q type_ limit offset : query_value)
    (d d' : db) :
  NoDup (tx_id <$> transactions d) →
  transactions d ≡ₚ transactions d' →
  get_api_transactions q type_ limit offset d
  = get_api_transactions q type_ limit offset d'.
Proof.
  intros Hnodup Hperm. unfold get_api_transactions.
  destruct (trimmed q) as [q'|]; [|done].
  destruct (trimmed type_) as [ty|]; [|done]. cbn [mbind option_bind].
  set (w := list_where _ _).
  assert (SQL.order_by date_id_desc (select_where w d)
          = SQL.order_by date_id_desc (select_where w d')) as ->; [|done].
  apply (StronglySorted_unique_strong date_id_desc).
  - intros x y Hx Hy Hxy Hyx.
    apply elem_of_order_by in Hx; [|apply _..].
    apply elem_of_order_by in Hy; [|apply _..].
    apply list_elem_of_filter in Hx as [_ Hx].
    apply list_elem_of_filter in Hy as [_ Hy].
    rewrite <- Hperm in Hy.
    eapply (unique_key_eq tx_id); eauto using date_id_desc_tie.
  - apply order_by_sorted; apply _.
  - apply order_by_sorted; apply _.
  - rewrite !order_by_perm by apply _. unfold select_where. by rewrite Hperm.
Qed.

Lemma list_transactions_storage_order_witness :
  get_api_transactions Absent Absent Absent Absent db_ledger
  = get_api_transactions Absent Absent Absent Absent
      (with_transactions (reverse (transactions db_ledger))).
Proof.
  apply (list_transactions_storage_order Absent Absent Absent Absent db_ledger
           (with_transactions (reverse (transactions db_ledger)))).
  - apply (bool_decide_unpack _). by vm_compute.
  - symmetry. apply reverse_Permutation.
Defined.

(** ** Reads after writes *)

Lemma add_all_sum (acc : Z) (xs : list Z) (r : Z) :
  SQL.add_all acc xs = Some r → r = acc + sum_Z xs.
Proof.
  unfold sum_Z. revert acc. induction xs as [|x xs IH]; intros acc; simpl.
  - intros [= <-]. lia.
  - destruct (SQL.int64 (acc + x)); [|done]. intros ->%IH. lia.
Qed.

Lemma SUM_int_Some (items : list inventory_item) (r : option Z) :
  SQL.SUM_int (inv_stock <$> items) = Some r → SQL.IFNULL r 0 = sum_stock items.
Proof.
  unfold SQL.SUM_int, sum_stock. rewrite omap_id_fmap. fold (stocks items).
  destruct (stocks items) as [|x xs] eqn:Hs; [by intros [= <-]|].
  rewrite <- Hs. destruct (SQL.add_all 0 (stocks items)) as [z|] eqn:Hz; [|done].
  simpl. intros [= <-]. by apply add_all_sum in Hz.
Qed.

(** The answer of GET /api/stats is decided by the sum of the stocks. *)
Lemma get_api_stats_cases (d : db) :
  get_api_stats d
  = match SQL.SUM_int (inv_stock <$> inventory d) with
    | Some _ => Ok (totals d)
    | None => ServerError "Server error"
    end.
Proof.
  unfold get_api_stats, totals, sum_debit.
  destruct (SQL.SUM_int (inv_stock <$> inventory d)) as [r|] eqn:Hsum; [|done].
  simpl. rewrite (SUM_int_Some _ _ Hsum).
  rewrite !IFNULL_SUM, !or_zero_total_of, or_zero_int_id.
  by rewrite !select_where_type.
Qed.







Lemma serve_frame (h : Date.host) (r : request) (d : db) :
  inventory (serve h r d).1 = inventory d
  ∧ categories (serve h r d).1 = categories d
  ∧ category_sales (serve h r d).1 = category_sales d.
Proof.
  destruct r as [b|id_param b|id_param]; unfold serve; cbn [fst].
  - unfold post_api_transactions, insert_transaction.
    by destruct (missing_required b).
  - unfold put_api_transactions_id. by destruct (missing_required b).
  - done.
Qed.

Lemma serve_all_frame (h : Date.host) (rs : list request) (d : db) :
  inventory (serve_all h rs d).1 = inventory d
  ∧ categories (serve_all h rs d).1 = categories d
  ∧ category_sales (serve_all h rs d).1 = category_sales d.
Proof.
  revert d. induction rs as [|r rs IH]; intros d; [done|].
  rewrite serve_all_cons. cbn [fst].
  destruct (IH (serve h r d).1) as (-> & -> & ->). apply serve_frame.
Qed.

(** X15.  The writing handlers keep to their table.  No sequence of POST,
    PUT and DELETE requests on /api/transactions changes what
    GET /api/inventory and GET /api/category-sales answer or the stock
    total of GET /api/stats; PUT /api/inventory/:id changes neither the
    answers of GET /api/transactions and of GET /api/category-sales nor the
    revenue, expenses and profit of GET /api/stats. *)
Theorem writes_keep_to_their_table (h : Date.host) (rs : list request)
    (id_param : string) (ib : Inventory.body) (d : db) :
  get_api_inventory (serve_all h rs d).1 = get_api_inventory d
  ∧ (∀ month, get_api_category_sales h month (serve_all h rs d).1
              = get_api_category_sales h month d)
  ∧ (∀ s s', get_api_stats d = Ok s → get_api_stats (serve_all h rs d).1 = Ok s' →
             Stats.stock s' = Stats.stock s)
  ∧ (∀ q type_ limit offset,
       get_api_transactions q type_ limit offset (put_api_inventory_id id_param ib d).1
       = get_api_transactions q type_ limit offset d)
  ∧ (∀ month, get_api_category_sales h month (put_api_inventory_id id_param ib d).1
              = get_api_category_sales h month d)
  ∧ (∀ s s', get_api_stats d = Ok s →
             get_api_stats (put_api_inventory_id id_param ib d).1 = Ok s' →
             Stats.revenue s' = Stats.revenue s
             ∧ Stats.expenses s' = Stats.expenses s
             ∧ Stats.profit s' = Stats.profit s).
Proof.
  destruct (serve_all_frame h rs d) as (Hinv & Hcat & Hsales).
  split; [unfold get_api_inventory; by rewrite Hinv|].
  split.
  { intros month. unfold get_api_category_sales, left_join, join_rows,
      matching_sales. by rewrite Hcat, Hsales. }
  split.
  { intros s s'. rewrite !get_api_stats_cases, Hinv.
    destruct (SQL.SUM_int _); [|done]. unfold totals.
    intros [= <-] [= <-]. cbn [Stats.stock]. by rewrite Hinv. }
  split; [done|]. split; [done|].
  intros s s'. rewrite !get_api_stats_cases.
  destruct (SQL.SUM_int (inv_stock <$> inventory d)); [|done].
  destruct (SQL.SUM_int _); [|done]. by intros [= <-] [= <-].
Qed.

Lemma sum_stock_insert (items : list inventory_item) (i : nat)
    (old new : inventory_item) :
  items !! i = Some old →
  sum_stock (<[i := new]> items)
  = sum_stock items - default 0 (inv_stock old) + default 0 (inv_stock new).
Proof.
  unfold sum_stock, stocks, sum_Z. revert i.
  induction items as [|a items IH]; intros i Hi; [done|].
  destruct i as [|i]; csimpl in *.
  - injection Hi as ->. destruct (inv_stock old), (inv_stock new); simpl; lia.
  - destruct (inv_stock a); simpl; rewrite (IH i Hi); lia.
Qed.

(** X16.  GET /api/stats after PUT /api/inventory/:id on a stored item
    (ids unique, the stocks and the submitted stock 64-bit integers): the
    sum of the stocks loses the old stock of the item and gains the
    submitted one, a missing or null [stock] counting for 0.  The
    statistics then answer 500 when, adding up the new stocks in row
    order, a partial sum leaves the 64-bit range, and otherwise report the
    double nearest to the new sum as the stock total: the sum itself up to
    2^53 in magnitude, so that the reported total moves by the difference
    of the two stocks when the old sum was reported exactly, too. *)
Theorem stats_after_restock (id_param : string) (b : Inventory.body) (d : db)
    (i : nat) (item : inventory_item) (new : option Z) :
  NoDup (inv_id <$> inventory d) →
  integer_stocks (inventory d) →
  inventory d !! i = Some item →
  JS.parseInt id_param = Some (inv_id item) →
  stored_value (Inventory.stock b) new →
  (∀ v, new = Some v → - 2 ^ 63 ≤ v < 2 ^ 63) →
  sum_stock (inventory (put_api_inventory_id id_param b d).1)
    = sum_stock (inventory d) - default 0 (inv_stock item) + default 0 new
  ∧ integer_stocks (inventory (put_api_inventory_id id_param b d).1)
  ∧ (stock_overflows (inventory (put_api_inventory_id id_param b d).1) →
     get_api_stats (put_api_inventory_id id_param b d).1 = ServerError "Server error")
  ∧ (¬ stock_overflows (inventory (put_api_inventory_id id_param b d).1) →
     ∃ s' : Stats.t,
       get_api_stats (put_api_inventory_id id_param b d).1 = Ok s'
       ∧ Stats.stock s'
         = JS.to_double
             (sum_stock (inventory d) - default 0 (inv_stock item) + default 0 new)
       ∧ nearest_double
           (sum_stock (inventory d) - default 0 (inv_stock item) + default 0 new)
           (Stats.stock s')
       ∧ (Z.abs (sum_stock (inventory d) - default 0 (inv_stock item) + default 0 new)
            ≤ 2 ^ 53 →
          Stats.stock s'
          = sum_stock (inventory d) - default 0 (inv_stock item) + default 0 new)
       ∧ (∀ s, get_api_stats d = Ok s →
            Z.abs (sum_stock (inventory d)) ≤ 2 ^ 53 →
            Z.abs (sum_stock (inventory d) - default 0 (inv_stock item) + default 0 new)
              ≤ 2 ^ 53 →
            Stats.stock s'
            = Stats.stock s - default 0 (inv_stock item) + default 0 new)).
Proof.
  intros Hnodup Hints Hi Hid Hnew Hrange.
  assert (inventory (put_api_inventory_id id_param b d).1
          = <[i := restock b item]> (inventory d)) as Hinv.
  { unfold put_api_inventory_id, update_inventory. cbv zeta. cbn [fst]. rewrite Hid.
    change (inventory (set_inventory ?l d)) with l. unfold inventory_hit.
    by rewrite (fmap_hit_insert inv_id _ _ i item). }
  assert (inv_stock (restock b item) = new) as Hstock.
  { unfold restock, stored_value in *. cbn. by destruct (Inventory.stock b). }
  assert (sum_stock (inventory (put_api_inventory_id id_param b d).1)
          = sum_stock (inventory d) - default 0 (inv_stock item) + default 0 new)
    as Hsum.
  { by rewrite Hinv, (sum_stock_insert _ i item), Hstock. }
  split; [done|]. split.
  { rewrite Hinv. intros v Hv. unfold stocks in Hv.
    apply list_elem_of_omap in Hv as (x & Hx & Hv).
    apply list_elem_of_lookup in Hx as [j Hj].
    destruct (decide (i = j)) as [<-|Hij].
    - rewrite list_lookup_insert_eq in Hj by by eapply lookup_lt_Some.
      injection Hj as <-. apply Hrange. by rewrite <- Hstock.
    - rewrite list_lookup_insert_ne in Hj by done.
      apply Hints. unfold stocks. apply list_elem_of_omap. exists x.
      split; [by eapply list_elem_of_lookup_2 | done]. }
  split; [apply get_api_stats_error|].
  intros Hfits. rewrite (get_api_stats_Ok _ Hfits). eexists. split; [done|].
  cbn [Stats.stock]. rewrite Hsum.
  split; [done|]. split; [apply to_double_nearest|].
  split; [apply to_double_small|].
  intros s Hs Hold Hnow. rewrite get_api_stats_cases in Hs.
  destruct (SQL.SUM_int _); [|done]. injection Hs as <-.
  unfold totals. cbn [Stats.stock]. by rewrite !to_double_small.
Qed.

Lemma stats_after_restock_witness :
  sum_stock (inventory (put_api_inventory_id "3" body_restock db_stockroom).1)
    = 43 - 3 + 25
  ∧ ∃ s' : Stats.t,
      get_api_stats (put_api_inventory_id "3" body_restock db_stockroom).1 = Ok s'
      ∧ Stats.stock s' = 65.
Proof.
  destruct (stats_after_restock "3" body_restock db_stockroom 2
            {| inv_id := 3; inv_sku := "PAD"; inv_name := "Pad"; inv_stock := Some 3;
               inv_reorder_level := Some 5; inv_status := Some "low" |} (Some 25))
    as (Hsum & _ & _ & Hstats).
  - apply (bool_decide_unpack _). by vm_compute.
  - intros v Hv. apply Forall_forall with (x := v) (l := stocks (inventory db_stockroom));
      [|exact Hv]. repeat constructor; vm_compute; discriminate.
  - reflexivity.
  - reflexivity.
  - reflexivity.
  - intros v [= <-]. lia.
  - split; [exact Hsum|]. destruct Hstats as (s' & Hs' & Hstock & _).
    + intros [k Hk]. destruct k as [|[|[|k]]]; vm_compute in Hk; apply Hk; by split.
    + exists s'. split; [exact Hs'|]. rewrite Hstock. reflexivity.
Defined.

(** ** GET /api/revenue-series: the size of the window *)

Lemma month_keys_length (h : Date.host) (n : nat) (ks : list string) :
  month_keys h n = Some ks → length ks = n.
Proof.
  revert ks. induction n as [|n IH]; intros ks; simpl; [by intros [= <-]|].
  destruct (Date.first_of_month h _ _) as [t|]; [|done]. simpl.
  destruct (month_keys h n) as [rest|]; [|done]. simpl.
  intros [= <-]. simpl. by rewrite (IH rest).
Qed.

(** X17.  Every successful answer of GET /api/revenue-series has four
    arrays of one length, the number [months] parses to (none for a negative
    one); the window is 6 months when [months] is absent or empty, and a
    [months] that is no number gives the empty series, not an error. *)
Theorem revenue_series_lengths (h : Date.host) (mp : option string) (d : db) :
  (∀ s, get_api_revenue_series h mp d = Ok s →
        let n := Z.to_nat (default 0 (JS.parseInt (JS.or_string mp "6"))) in
        length (Series.months s) = n ∧ length (Series.labels s) = n
        ∧ length (Series.revenue s) = n ∧ length (Series.expenses s) = n)
  ∧ ((mp = None ∨ mp = Some EmptyString) →
     JS.parseInt (JS.or_string mp "6") = Some 6)
  ∧ (JS.parseInt (JS.or_string mp "6") = None →
     get_api_revenue_series h mp d = Ok empty_series)
  ∧ (∀ m, get_api_revenue_series h mp d ≠ BadRequest m).
Proof.
  split; [|split; [|split]].
  - intros s (Hkeys & -> & -> & ->)%get_api_revenue_series_Ok n.
    apply month_keys_length in Hkeys. by rewrite !length_fmap.
  - by intros [->| ->].
  - intros Hnan. unfold get_api_revenue_series. by rewrite Hnan.
  - intros m. unfold get_api_revenue_series.
    by destruct (month_keys h _).
Qed.

Lemma days_from_civil_remote (y m : Z) :
  y ≤ -280000 → 1 ≤ m ≤ 12 → Date.days_from_civil y m 1 ≤ -100002000.
Proof.
  intros Hy Hm. unfold Date.days_from_civil.
  destruct (Z.leb_spec m 2); Z.to_euclidean_division_equations; lia.
Qed.

Lemma first_of_month_remote (h : Date.host) (mi : Z) :
  ordinary_host h → mi ≤ -3490000 →
  Date.first_of_month h (Date.getFullYear h) mi = None.
Proof.
  intros (Htz & Hyear & _) Hmi. unfold Date.first_of_month.
  replace ((0 <=? Date.getFullYear h) && (Date.getFullYear h <=? 99)) with false
    by (symmetry; apply andb_false_iff; lia).
  set (ym := Date.getFullYear h + mi / 12). set (mn := mi mod 12).
  assert (0 ≤ mn < 12) as Hmn by (apply Z.mod_pos_bound; lia).
  assert (ym ≤ -280000) as Hym
    by (unfold ym; Z.to_euclidean_division_equations; lia).
  pose proof (days_from_civil_remote ym (mn + 1) Hym ltac:(lia)) as Hdays.
  specialize (Htz ym mn).
  destruct (Z.leb_spec (Z.abs (Date.days_from_civil ym (mn + 1) 1 * 1440
                               - Date.tz_offset h ym mn)) 144000000000);
    [lia | done].
Qed.

(** X18.  On an ordinary host a window of 3,500,000 months or more makes
    GET /api/revenue-series answer 500 "Server error": the first month of
    the loop lies before the earliest date a [Date] can hold, and
    [toISOString] throws. *)
Theorem revenue_series_window_too_long (h : Date.host) (mp : option string)
    (d : db) (n : Z) :
  ordinary_host h →
  JS.parseInt (JS.or_string mp "6") = Some n →
  3500000 ≤ n →
  get_api_revenue_series h mp d = ServerError "Server error"
  ∧ status (get_api_revenue_series h mp d) = 500.
Proof.
  intros Hh Hparse Hn.
  assert (get_api_revenue_series h mp d = ServerError "Server error") as Hrun.
  { unfold get_api_revenue_series. rewrite Hparse.
    change (default 0 (Some n)) with n.
    destruct (Z.to_nat n) as [|i] eqn:Hi; [lia|].
    change (month_keys h (S i))
      with (t ← Date.first_of_month h (Date.getFullYear h)
                  (Date.getMonth h - Z.of_nat i);
            rest ← month_keys h i;
            Some (JS.slice0 7 (Date.toISOString t) :: rest)).
    rewrite first_of_month_remote; [done..|].
    destruct Hh as (_ & _ & Hm). lia. }
  split; [done | by rewrite Hrun].
Qed.

Lemma revenue_series_window_too_long_witness :
  get_api_revenue_series host_utc (Some "4000000") db_ledger
  = ServerError "Server error".
Proof.
  refine (proj1 (revenue_series_window_too_long host_utc (Some "4000000")
                   db_ledger 4000000 _ _ _)).
  - split; [intros; simpl; lia | simpl; lia].
  - reflexivity.
  - lia.
Defined.

(** ** GET /api/transactions/export: commas and quotes of a line *)

Lemma length_split_go (c : ascii) (cur s : string) :
  length (JS.split_go c cur s) = S (count_char c s).
Proof.
  revert cur. induction s as [|d s IH]; intros cur; [done|].
  simpl. destruct (decide (d = c)); simpl; by rewrite IH.
Qed.

Lemma count_char_quoted (c : ascii) (v : string) :
  count_char c (quoted v)
  = ((if decide (dquote = c) then 2 else 0) + count_char c v)%nat.
Proof.
  unfold quoted. change (String dquote v +:+ String dquote EmptyString)
    with (String dquote (v +:+ String dquote EmptyString)).
  rewrite count_char_cons, count_char_app, count_char_cons.
  change (count_char c EmptyString) with 0%nat.
  repeat case_decide; first [lia | congruence].
Qed.

Lemma count_char_escape_quotes (c : ascii) (s : string) :
  count_char c (escape_quotes s)
  = (count_char c s + if decide (dquote = c) then count_char c s else 0)%nat.
Proof.
  induction s as [|a s IH]; [by case_decide|].
  rewrite escape_quotes_cons. destruct (decide (a = dquote)) as [->|Ha].
  - rewrite !count_char_cons, IH. repeat case_decide; first [lia | congruence].
  - rewrite !count_char_cons, IH. repeat case_decide; first [lia | congruence].
Qed.

Lemma count_char_csv_line (c : ascii) (show : float → string) (r : transaction) :
  count_char c (csv_line show r)
  = ((if decide ("," = c)%char then 5 else 0)
     + (if decide (dquote = c) then 12 else 0)
     + count_char c (tx_date r)
     + count_char c (escape_quotes (tx_reference r))
     + count_char c (tx_type r)
     + count_char c (escape_quotes (tx_account r))
     + count_char c (number_text show (tx_debit r))
     + count_char c (number_text show (tx_credit r)))%nat.
Proof.
  unfold csv_line, csv_fields.
  rewrite !fmap_cons, fmap_nil. cbn [JS.join].
  change ("," : string) with (String ","%char EmptyString).
  rewrite !count_char_app, !count_char_quoted.
  change (count_char c (String ","%char EmptyString))
    with ((if decide (","%char = c) then 1 else 0) + 0)%nat.
  repeat case_decide; first [lia | congruence].
Qed.

(** X19.  Split at its commas, a line of the CSV export has six columns plus
    one for every comma inside the date, reference, type, account, debit and
    credit texts of the row: commas in the fields are written as they are,
    and a row without any gives exactly six columns. *)
Theorem csv_line_columns (show : float → string) (r : transaction) :
  length (JS.split "," (csv_line show r))
  = (6 + count_char "," (tx_date r) + count_char "," (tx_reference r)
     + count_char "," (tx_type r) + count_char "," (tx_account r)
     + count_char "," (number_text show (tx_debit r))
     + count_char "," (number_text show (tx_credit r)))%nat
  ∧ (Forall (λ v, count_char "," v = 0%nat)
       [tx_date r; tx_reference r; tx_type r; tx_account r;
        number_text show (tx_debit r); number_text show (tx_credit r)] →
     length (JS.split "," (csv_line show r)) = 6%nat).
Proof.
  assert (length (JS.split "," (csv_line show r))
          = (6 + count_char "," (tx_date r) + count_char "," (tx_reference r)
             + count_char "," (tx_type r) + count_char "," (tx_account r)
             + count_char "," (number_text show (tx_debit r))
             + count_char "," (number_text show (tx_credit r)))%nat) as Hcount.
  { unfold JS.split. rewrite length_split_go, count_char_csv_line.
    rewrite !count_char_escape_quotes.
    repeat case_decide; first [lia | done]. }
  split; [done|]. rewrite Hcount. intros Hfields.
  apply Forall_cons in Hfields as [-> Hfields].
  apply Forall_cons in Hfields as [-> Hfields].
  apply Forall_cons in Hfields as [-> Hfields].
  apply Forall_cons in Hfields as [-> Hfields].
  apply Forall_cons in Hfields as [-> Hfields].
  apply Forall_cons in Hfields as [-> _]. done.
Qed.

(** X20.  The double quotes of a line of the CSV export: twelve that enclose
    the six fields, two for each double quote of reference and account, and
    one for each double quote of the date, the type and the two number
    texts, which are written unescaped. *)
Theorem csv_line_quotes (show : float → string) (r : transaction) :
  count_char dquote (csv_line show r)
  = (12 + 2 * count_char dquote (tx_reference r)
     + 2 * count_char dquote (tx_account r)
     + count_char dquote (tx_date r) + count_char dquote (tx_type r)
     + count_char dquote (number_text show (tx_debit r))
     + count_char dquote (number_text show (tx_credit r)))%nat.
Proof.
  rewrite count_char_csv_line, !count_char_escape_quotes.
  repeat case_decide; first [lia | done].
Qed.

(** ** The numeric parameters *)

Lemma parse_digits_app (r junk : string) (acc : option Z) :
  (∀ c junk', junk = String c junk' → JS.digit_value c = None) →
  JS.parse_digits (r +:+ junk) acc = JS.parse_digits r acc.
Proof.
  intros Hjunk. revert acc. induction r as [|c r IH]; intros acc.
  - destruct junk as [|c junk']; [done|]. simpl.
    by rewrite (Hjunk c junk').
  - simpl. destruct (JS.digit_value c); [apply IH | done].
Qed.

Lemma trimStart_app (s junk : string) :
  JS.trimStart s ≠ EmptyString → JS.trimStart (s +:+ junk) = JS.trimStart s +:+ junk.
Proof.
  induction s as [|c s IH]; [done|]. simpl.
  destruct (JS.is_white_space c); [apply IH | done].
Qed.

Lemma parseInt_app (s junk : string) (n : Z) :
  JS.parseInt s = Some n →
  (∀ c junk', junk = String c junk' → JS.digit_value c = None) →
  JS.parseInt (s +:+ junk) = Some n.
Proof.
  intros Hs Hjunk. unfold JS.parseInt in *.
  rewrite trimStart_app by (by destruct (JS.trimStart s)).
  destruct (JS.trimStart s) as [|c r]; [done|].
  change (String c r +:+ junk) with (String c (r +:+ junk)).
  rewrite <- Hs.
  assert (∀ acc, JS.parse_digits (r +:+ junk) acc = JS.parse_digits r acc) as Hrun
    by (intros acc; by apply parse_digits_app).
  destruct c as [[] [] [] [] [] [] [] []]; simpl; by rewrite ?Hrun.
Qed.

(** X21.  The handlers read a numeric parameter by its numeric prefix: text
    that follows the number and does not start with a digit is ignored, so
    an id such as "2abc" addresses row 2 in PUT and DELETE, and a [limit],
    [offset] or [months] such as "2abc" counts as 2. *)
Theorem numeric_prefix_is_read (s junk : string) (n : Z) (h : Date.host)
    (b : body) (ib : Inventory.body) (q type_ other : query_value) (d : db) :
  JS.parseInt s = Some n →
  (∀ c junk', junk = String c junk' → JS.digit_value c = None) →
  delete_api_transactions_id (s +:+ junk) d = delete_api_transactions_id s d
  ∧ put_api_transactions_id (s +:+ junk) b d = put_api_transactions_id s b d
  ∧ put_api_inventory_id (s +:+ junk) ib d = put_api_inventory_id s ib d
  ∧ get_api_transactions q type_ (Text (s +:+ junk)) other d
    = get_api_transactions q type_ (Text s) other d
  ∧ get_api_transactions q type_ other (Text (s +:+ junk)) d
    = get_api_transactions q type_ other (Text s) d
  ∧ get_api_revenue_series h (Some (s +:+ junk)) d
    = get_api_revenue_series h (Some s) d.
Proof.
  intros Hs Hjunk. pose proof (parseInt_app s junk n Hs Hjunk) as Hsj.
  assert (∀ dflt, JS.or_string (Some s) dflt = s) as Hor by by destruct s.
  assert (∀ dflt, JS.or_string (Some (s +:+ junk)) dflt = s +:+ junk) as Horj
    by by destruct s.
  unfold delete_api_transactions_id, put_api_transactions_id,
    put_api_inventory_id, get_api_transactions, get_api_revenue_series, parsed.
  by rewrite !Hor, !Horj, !Hsj, !Hs.
Qed.

Lemma numeric_prefix_is_read_witness :
  delete_api_transactions_id "2abc" db_ledger = delete_api_transactions_id "2" db_ledger
  ∧ get_api_revenue_series host_utc (Some "2abc") db_ledger
    = get_api_revenue_series host_utc (Some "2") db_ledger.
Proof.
  destruct (numeric_prefix_is_read "2" "abc" 2 host_utc body_invoice body_restock
              Absent Absent Absent db_ledger)
    as (Hdel & _ & _ & _ & _ & Hseries).
  - reflexivity.
  - intros c junk' [= <- _]. reflexivity.
  - split; [exact Hdel | exact Hseries].
Defined.

(** ** PUT twice, and the list after a POST *)

Section rewrite_hits.
Context {A : Type} (key : A → Z) (id : option Z) (f : A → A).
Hypothesis key_kept : ∀ y, key (f y) = key y.
Hypothesis f_twice : ∀ y, f (f y) = f y.

Lemma fmap_hit_twice (l : list A) :
  (λ y, if bool_decide (id = Some (key y)) then f y else y)
    <$> ((λ y, if bool_decide (id = Some (key y)) then f y else y) <$> l)
  = (λ y, if bool_decide (id = Some (key y)) then f y else y) <$> l.
Proof.
  rewrite <- list_fmap_compose. apply list_fmap_ext. intros i y _. simpl.
  destruct (bool_decide (id = Some (key y))) eqn:Hhit.
  - by rewrite key_kept, Hhit, f_twice.
  - by rewrite Hhit.
Qed.

Lemma filter_hit_fmap_length (l : list A) :
  length (filter (λ y, bool_decide (id = Some (key y)))
            ((λ y, if bool_decide (id = Some (key y)) then f y else y) <$> l))
  = length (filter (λ y, bool_decide (id = Some (key y))) l).
Proof.
  induction l as [|a l IH]; [done|].
  rewrite fmap_cons, !filter_cons.
  destruct (bool_decide (id = Some (key a))) eqn:Hhit; cbv beta iota.
  - rewrite key_kept, Hhit.
    destruct (decide (Is_true true)) as [_|[]]; [|done]. simpl. by rewrite IH.
  - rewrite Hhit. by destruct (decide (Is_true false)) as [[]|_].
Qed.
End rewrite_hits.

(** X22.  PUT is idempotent: the same PUT /api/transactions/:id or
    PUT /api/inventory/:id once more gives the same answer, change count
    included, and leaves the database as the first one left it. *)
Theorem put_twice (id_param : string) (b : body) (ib : Inventory.body) (d : db) :
  put_api_transactions_id id_param b (put_api_transactions_id id_param b d).1
    = put_api_transactions_id id_param b d
  ∧ put_api_inventory_id id_param ib (put_api_inventory_id id_param ib d).1
    = put_api_inventory_id id_param ib d.
Proof.
  split.
  - unfold put_api_transactions_id. destruct (missing_required b); [done|].
    cbv zeta. rewrite !update_transaction_eq. cbn [fst snd].
    unfold getAsync, select_where. rewrite !holds_IdEq.
    cbn [set_transactions transactions transactions_seq inventory categories
         category_sales].
    rewrite (fmap_hit_twice tx_id), (filter_hit_fmap_length tx_id) by done.
    done.
  - unfold put_api_inventory_id, update_inventory, inventory_hit.
    cbv zeta. cbn [fst snd].
    cbn [set_inventory transactions transactions_seq inventory categories
         category_sales].
    rewrite (fmap_hit_twice inv_id), (filter_hit_fmap_length inv_id) by done.
    done.
Qed.

Lemma listing_eq (q type_ : option string) (d : db) :
  listing q type_ d
  = SQL.order_by date_id_desc
      (filter (λ t, holds (list_where (JS.trim (JS.or_string q EmptyString))
                                      (JS.trim (JS.or_string type_ EmptyString))) t)
         (transactions d)).
Proof. reflexivity. Qed.

(** X23.  The list after a POST.  When the rowids are unique and bounded by
    the AUTOINCREMENT counter and no stored date is above the date of the
    new row, the row a successful POST creates comes first in the rows GET
    /api/transactions orders, before the rows listed until then, if it
    passes the filters [q] and [type]; if it does not, the list is as
    before. *)
Theorem post_then_list (h : Date.host) (b : body) (d : db) (row : transaction)
    (q type_ : option string) :
  well_keyed d →
  (post_api_transactions h b d).2 = Ok (Some row) →
  (∀ t, t ∈ transactions d → (tx_date t ≤ tx_date row)%string) →
  listing q type_ (post_api_transactions h b d).1
  = (if holds (list_where (JS.trim (JS.or_string q EmptyString))
                          (JS.trim (JS.or_string type_ EmptyString))) row
     then [row] else []) ++ listing q type_ d
  ∧ get_api_transactions (given q) (given type_) Absent Absent
      (post_api_transactions h b d).1
    = Ok (take 100 (listing q type_ (post_api_transactions h b d).1)).
Proof.
  intros [Hnodup Hseq] Hpost Hdates. split.
  2: { rewrite (get_api_transactions_eq _ _ Absent Absent _ 100 0);
         [|done|done|by vm_compute|by vm_compute].
       change (JS.to_double 100) with 100. change (JS.to_double 0) with 0.
       by rewrite limit_offset_nonneg by lia. }
  destruct (missing_required b) eqn:Hmiss.
  { unfold post_api_transactions in Hpost. by rewrite Hmiss in Hpost. }
  rewrite post_api_transactions_stored in Hpost |- * by done.
  simpl in Hpost. injection Hpost as <-. cbn [fst].
  rewrite !listing_eq.
  set (w := list_where _ _).
  set (row := created h b d) in *.
  change (transactions (set_transactions ?l _ d)) with l.
  rewrite filter_app, filter_cons, filter_nil.
  destruct (holds w row) eqn:Hrow.
  2: { destruct (decide (Is_true false)) as [[]|_]. by rewrite app_nil_r. }
  destruct (decide (Is_true true)) as [_|[]]; [|done].
  apply (StronglySorted_unique_strong date_id_desc).
  - intros x y Hx Hy Hxy Hyx.
    apply elem_of_order_by in Hx; [|apply _..].
    assert (x ∈ transactions d ++ [row]) as Hx'.
    { apply elem_of_app in Hx as [[_ Hx]%list_elem_of_filter|Hx];
        apply elem_of_app; auto. }
    assert (y ∈ transactions d ++ [row]) as Hy'.
    { apply elem_of_app in Hy as [Hy|Hy]; apply elem_of_app; [by right|].
      apply elem_of_order_by in Hy; [|apply _..].
      apply list_elem_of_filter in Hy as [_ Hy]. by left. }
    apply (unique_key_eq tx_id (transactions d ++ [row]));
      [|done|done|by apply date_id_desc_tie].
    rewrite fmap_app. apply NoDup_app. split; [done|]. split.
    + intros n (t & -> & Hin%tx_id_lt_next)%list_elem_of_fmap.
      intros [Heq|[]%elem_of_nil]%elem_of_cons. simpl in Heq. lia.
    + apply NoDup_singleton.
  - apply order_by_sorted; apply _.
  - constructor; [apply order_by_sorted; apply _|].
    apply Forall_forall. intros t Ht.
    apply elem_of_order_by in Ht; [|apply _..].
    apply list_elem_of_filter in Ht as [_ Ht].
    unfold date_id_desc.
    destruct (decide (tx_date row = tx_date t)) as [Heq|Hne].
    + right. split; [done|]. apply tx_id_lt_next in Ht. simpl. lia.
    + left. split; [done|]. by apply Hdates.
  - rewrite !order_by_perm by apply _.
    by rewrite (comm app).
Qed.

Lemma post_then_list_witness :
  listing (Some "inv") None (post_api_transactions host_utc body_rent db_ledger).1
    = listing (Some "inv") None db_ledger
  ∧ listing (Some "rent") None (post_api_transactions host_utc body_rent db_ledger).1
    = [created host_utc body_rent db_ledger] ++ listing (Some "rent") None db_ledger.
Proof.
  assert (well_keyed db_ledger) as Hkeys.
  { split.
    - apply (bool_decide_unpack _). by vm_compute.
    - apply Forall_forall. repeat constructor; vm_compute; discriminate. }
  assert (∀ t, t ∈ transactions db_ledger →
               (tx_date t ≤ tx_date (created host_utc body_rent db_ledger))%string)
    as Hdates.
  { apply Forall_forall. repeat constructor; apply (bool_decide_unpack _); by vm_compute. }
  split.
  - exact (proj1 (post_then_list host_utc body_rent db_ledger
                    (created host_utc body_rent db_ledger) (Some "inv") None
                    Hkeys eq_refl Hdates)).
  - exact (proj1 (post_then_list host_utc body_rent db_ledger
                    (created host_utc body_rent db_ledger) (Some "rent") None
                    Hkeys eq_refl Hdates)).
Defined.

